(** * embed.c: a shallow embedding and its verification

    [embed] turns a list of input files into one C source file holding three
    parallel tables (names, payloads, sizes) and a lookup function, plus an
    optional header.  This development embeds the generator function by
    function, gives the generated tables their C reading, and states the
    properties of the specification against both.

    Conventions of the model.
    - A [char] is an [ascii]; a C string is a [string] listing the characters
      before the terminator, so the character NUL does not occur in one.  A
      [char[]] object is a [list ascii] with its terminator written out.
    - A pointer that may be null is an [option].
    - A generated file is kept as the sequence of the calls that write it,
      each with its argument; [render] gives its text, and [lex] cuts a text
      into C tokens.  The tables of a generated file are those of its text,
      [lex (render ws)].  The generator prints every path raw inside a
      comment, so the text has the intended tables only when no path ends
      its comment; the statements about the text ask for paths without
      [*].
    - The [int] loop counters of the source only steer the line wrapping and
      the separators; they are natural numbers here.  They stay below
      [INT_MAX] in every run the model covers: a command-line argument is far
      shorter, and an input file of 2 GiB or more is outside the model.
    - The program is built for a POSIX system: the path separator is [/] and
      the text mode of [fopen] does not alter the bytes read.
    - The input files are regular files that can be read to their end and
      that nobody changes while the program runs: every open of a path sees
      the same bytes. *)

From Stdlib Require Import List String Ascii NArith ZArith Arith Bool.
From Stdlib Require Import Lia ZifyNat.
From Stdlib Require Import DecimalString DecimalN.
Import ListNotations.

Local Open Scope string_scope.
Local Open Scope list_scope.

(* ================================================================== *)
(** * Characters and C strings *)

Definition NUL : ascii := Ascii.zero.

(** [#define HEX_COLS 12] *)
Definition HEX_COLS : nat := 12.

(** [#define PATH_SEPARATOR '/'] (the branch taken without [_WIN32]). *)
Definition PATH_SEPARATOR : ascii := "/"%char.

Definition EXIT_SUCCESS : nat := 0.
Definition EXIT_FAILURE : nat := 1.

(** The largest [int] of the platforms the program is built for. *)
Definition INT_MAX : N := 2147483647.

(** The character code as the comparisons of the source see it.  Bytes above
    127 fall outside every range the source tests, whether [char] is signed
    or not. *)
Definition code (c : ascii) : N := N_of_ascii c.

Definition chars (s : string) : list ascii := list_ascii_of_string s.

(** The object a C string occupies in memory: its characters, then NUL. *)
Definition c_array (s : string) : list ascii := chars s ++ [NUL].

(** Reading a [char[]] object as a C string: the characters before the first
    NUL; [None] when the object holds no NUL (the read runs off its end). *)
Fixpoint c_str (arr : list ascii) : option string :=
  match arr with
  | [] => None
  | c :: rest =>
      if Ascii.eqb c NUL then Some EmptyString
      else option_map (String c) (c_str rest)
  end.

(** A string that is a legal C string. *)
Definition nul_free (s : string) : Prop := ~ In NUL (chars s).

(* ================================================================== *)
(** * plain_name *)

(** The loop of [plain_name]: [no_path] is the pointer kept so far, [rest]
    the characters from [filename[i]] on. *)
Fixpoint plain_name_loop (no_path rest : string) : string :=
  match rest with
  | EmptyString => no_path
  | String c rest' =>
      if Ascii.eqb c PATH_SEPARATOR
      then plain_name_loop rest' rest'
      else plain_name_loop no_path rest'
  end.

Definition plain_name (filename : string) : string :=
  plain_name_loop filename filename.

(* ================================================================== *)
(** * generate_define_name *)

(** One iteration of the [while] loop: the character stored through [o]. *)
Definition define_char (c : ascii) : ascii :=
  if (code "A" <=? code c)%N && (code c <=? code "Z")%N then c
  else if (code "a" <=? code c)%N && (code c <=? code "z")%N
       then ascii_of_N (code c - (code "a" - code "A"))
       else "_"%char.

(** The characters written to [output_file] before its terminator. *)
Fixpoint generate_define_name (filename : string) : string :=
  match filename with
  | EmptyString => EmptyString
  | String c rest => String (define_char c) (generate_define_name rest)
  end.

(* ================================================================== *)
(** * Output streams and the effects of an emitter *)

(** One call that writes to a generated file.  The calls are kept apart, each
    with its argument, and [render_write] gives the text a call prints. *)
Inductive write : Type :=
| Text (s : string)      (* [fprintf(fd, s)], a format without conversions,
                            or one whose [%s] is already filled in *)
| Comment (s : string)   (* [fprintf(fd, "\t/* %s */\n", s)] *)
| Hex (c : ascii)        (* [output_hex(fd, c)] *)
| Zu (n : N).            (* [fprintf(fd, "\t%zu", n)] *)

Definition TAB : string := String (ascii_of_nat 9) EmptyString.
Definition LF : string := String (ascii_of_nat 10) EmptyString.

Definition hex_digit (n : N) : ascii :=
  match n with
  | 0 => "0" | 1 => "1" | 2 => "2" | 3 => "3" | 4 => "4" | 5 => "5"
  | 6 => "6" | 7 => "7" | 8 => "8" | 9 => "9" | 10 => "A" | 11 => "B"
  | 12 => "C" | 13 => "D" | 14 => "E" | _ => "F"
  end%N%char.

(** ["0x%02X"] applied to [(unsigned char) b]. *)
Definition hex_literal (b : ascii) : string :=
  "0x" ++ String (hex_digit (N_of_ascii b / 16))
            (String (hex_digit (N_of_ascii b mod 16)) EmptyString).

(** ["%zu"]. *)
Definition decimal (n : N) : string := NilEmpty.string_of_uint (N.to_uint n).

Definition render_write (w : write) : string :=
  match w with
  | Text s => s
  | Comment s => TAB ++ "/* " ++ s ++ " */" ++ LF
  | Hex c => hex_literal c
  | Zu n => TAB ++ decimal n
  end.

(** The text of a generated file. *)
Definition render (ws : list write) : string :=
  String.concat "" (map render_write ws).

(** What an emitter can touch: the stream [fd] it was handed (the calls made
    on it so far) and the diagnostic stream. *)
Record out : Type := mkOut { fd : list write; err : list string }.

(** How a computation ends: it returns, the process exits with a status, or
    the C program has no defined behaviour from there on ([o] is what had been
    written when that point was reached). *)
Inductive res (A : Type) : Type :=
| Ok (a : A) (o : out)
| Exit (status : nat) (o : out)
| Undefined (o : out).
Arguments Ok {A} a o.
Arguments Exit {A} status o.
Arguments Undefined {A} o.

Definition W (A : Type) : Type := out -> res A.

Definition ret {A} (a : A) : W A := fun o => Ok a o.

Definition bind {A B} (m : W A) (k : A -> W B) : W B :=
  fun o => match m o with
           | Ok a o' => k a o'
           | Exit st o' => Exit st o'
           | Undefined o' => Undefined o'
           end.

Notation "x <- m ;; k" := (bind m (fun x => k))
  (at level 61, m at next level, right associativity).
Notation "m ;; k" := (bind m (fun _ => k))
  (at level 61, right associativity).

(** A write on the stream [fd]. *)
Definition put (w : write) : W unit :=
  fun o => Ok tt (mkOut (fd o ++ [w]) (err o)).

(** [fprintf(fd, s)]. *)
Definition fprintf (s : string) : W unit := put (Text s).

(** [fprintf(stderr, s)]. *)
Definition eprintf (s : string) : W unit :=
  fun o => Ok tt (mkOut (fd o) (err o ++ [s])).

(** [exit(status)]. *)
Definition exit {A} (status : nat) : W A := fun o => Exit status o.

(** A step without defined behaviour. *)
Definition undefined {A} : W A := fun o => Undefined o.

Definition when (b : bool) (m : W unit) : W unit := if b then m else ret tt.

(** [output_hex(fd, b)]. *)
Definition output_hex (b : ascii) : W unit := put (Hex b).

(* ================================================================== *)
(** * The input files *)

(** What [fopen(path, "r")] finds: the bytes of the file, or nothing. *)
Definition filesystem : Type := string -> option (list ascii).

(** An open [FILE*]: the bytes of the file and the position of the stream
    in them. *)
Record stream : Type := mkStream {
  stream_bytes : list ascii;
  stream_position : nat
}.

(** [fopen(path, "r")]: null, or a stream that stands at the first byte. *)
Definition fopen_r (fs : filesystem) (path : string) : option stream :=
  match fs path with
  | Some content => Some (mkStream content 0)
  | None => None
  end.

(** The bytes that [getc] gives from where the stream stands up to [feof]. *)
Definition unread (infd : stream) : list ascii :=
  skipn (stream_position infd) (stream_bytes infd).

(** [fseek(infd, 0, SEEK_END)]: on a null stream the call is undefined;
    on an open one it moves the stream behind its last byte.  The result is
    the stream as the call leaves it. *)
Definition fseek_end (infd : option stream) : W (option stream) :=
  match infd with
  | None => undefined
  | Some s =>
      ret (Some (mkStream (stream_bytes s) (List.length (stream_bytes s))))
  end.

(** [ftell(infd)]: the position of the stream; undefined on a null one. *)
Definition ftell (infd : option stream) : W N :=
  match infd with
  | None => undefined
  | Some s => ret (N.of_nat (stream_position s))
  end.

(* ================================================================== *)
(** * generate_file_list *)

(** The inner loop, entered with [count] and the characters of [input_file]
    from index [count] on.  [count] is an [int] in the source and a [nat]
    here: the two agree while the name is at most [INT_MAX] characters
    long. *)
Fixpoint name_chars (count : nat) (input_file : string) : W unit :=
  when (negb (count =? 0)%nat)
       (fprintf ", " ;;
        when (count mod HEX_COLS =? 0)%nat (fprintf (LF ++ TAB ++ TAB))) ;;
  match input_file with
  | EmptyString => output_hex NUL          (* [c == '\0']: [break] *)
  | String c rest => output_hex c ;; name_chars (S count) rest
  end.

(** The outer loop over the null-terminated array [files]. *)
Fixpoint file_list_loop (preserve_paths : bool) (files : list string)
  : W unit :=
  match files with
  | [] => ret tt
  | path :: files' =>
      let input_file := if negb preserve_paths then plain_name path else path in
      put (Comment input_file) ;;
      fprintf (TAB ++ "(char[]){" ++ LF ++ TAB ++ TAB) ;;
      name_chars 0 input_file ;;
      fprintf (LF ++ TAB ++ "}," ++ LF) ;;
      file_list_loop preserve_paths files'
  end.

(** [files] is a pointer: reading [*files] through a null one is undefined. *)
Definition generate_file_list (files : option (list string))
    (preserve_paths : bool) : W unit :=
  fprintf ("static const char* EMBEDDED_FILE_NAMES[] = {" ++ LF) ;;
  match files with
  | None => undefined
  | Some l => file_list_loop preserve_paths l
  end ;;
  fprintf (TAB ++ "(char[]){0}" ++ LF) ;;
  fprintf (LF ++ "};" ++ LF ++ LF).

(* ================================================================== *)
(** * generate_file_data *)

(** The read loop: [getc] until [feof].  [count] is an [int] in the source
    and a [nat] here: the two agree while [count + 1] does not overflow,
    that is for files of at most [INT_MAX] bytes.  The tokens written do not
    depend on [count]; the line breaks do. *)
Fixpoint data_chars (count : nat) (infd : list ascii) : W unit :=
  match infd with
  | [] => ret tt                            (* [feof(infd)]: [break] *)
  | c :: rest =>
      output_hex c ;;
      fprintf ", " ;;
      when ((count + 1) mod HEX_COLS =? 0)%nat (fprintf (LF ++ TAB ++ TAB)) ;;
      data_chars (S count) rest
  end.

Fixpoint file_data_loop (fs : filesystem) (file_count : nat)
    (files : list string) : W unit :=
  match files with
  | [] => ret tt
  | input_file :: files' =>
      match fopen_r fs input_file with
      | None =>
          eprintf ("Could not open file: '" ++ input_file ++ "'" ++ LF) ;;
          exit 1
      | Some infd =>
          when (negb (file_count =? 0)%nat) (fprintf ("," ++ LF)) ;;
          put (Comment input_file) ;;
          fprintf (TAB ++ "(char[]){" ++ LF ++ TAB ++ TAB) ;;
          data_chars 0 (unread infd) ;;
          output_hex NUL ;;
          fprintf (LF ++ TAB ++ "}") ;;
          file_data_loop fs (S file_count) files'
      end
  end.

Definition generate_file_data (fs : filesystem) (files : option (list string))
  : W unit :=
  fprintf ("static const char* EMBEDDED_FILE_DATA[] = {" ++ LF ++ "  ") ;;
  match files with
  | None => undefined
  | Some l => file_data_loop fs 0 l
  end ;;
  fprintf (LF ++ "};" ++ LF ++ LF).

(* ================================================================== *)
(** * generate_file_data_sizes *)

Fixpoint file_data_sizes_loop (fs : filesystem) (file_count : nat)
    (files : list string) : W unit :=
  match files with
  | [] => ret tt
  | input_file :: files' =>
      let infd := fopen_r fs input_file in
      infd <- fseek_end infd ;;     (* the stream, moved by the call *)
      length <- ftell infd ;;
      match infd with
      | None =>
          eprintf ("Could not open file: '" ++ input_file ++ "'" ++ LF) ;;
          exit 1
      | Some _ =>
          when (negb (file_count =? 0)%nat) (fprintf ("," ++ LF)) ;;
          put (Comment input_file) ;;
          put (Zu length) ;;
          file_data_sizes_loop fs (S file_count) files'
      end
  end.

Definition generate_file_data_sizes (fs : filesystem)
    (files : option (list string)) : W unit :=
  fprintf ("static size_t EMBEDDED_FILE_DATA_SIZES[] = {" ++ LF ++ "  ") ;;
  match files with
  | None => undefined
  | Some l => file_data_sizes_loop fs 0 l
  end ;;
  fprintf (LF ++ "};" ++ LF ++ LF).

(* ================================================================== *)
(** * generate_function and generate_function_declaration *)

Definition function_text (function_name : string) : string :=
  "const char* " ++ function_name
    ++ "(const char* filename, size_t* length) {" ++ LF
    ++ "  for (int i = 0; EMBEDDED_FILE_NAMES[i] != 0; i++) {" ++ LF
    ++ "     if (0 == strcmp(filename, EMBEDDED_FILE_NAMES[i])) {" ++ LF
    ++ "       if (length) {" ++ LF
    ++ "         *length = EMBEDDED_FILE_DATA_SIZES[i];" ++ LF
    ++ "       }" ++ LF
    ++ "       return EMBEDDED_FILE_DATA[i];" ++ LF
    ++ "     }" ++ LF
    ++ "  }" ++ LF
    ++ "  return NULL;" ++ LF
    ++ "}" ++ LF ++ LF.

Definition generate_function (function_name : string) : W unit :=
  fprintf (function_text function_name).

Definition generate_function_declaration (function_name : string) : W unit :=
  fprintf ("const char* " ++ function_name
             ++ "(const char* filename, size_t* length);" ++ LF).

(* ================================================================== *)
(** * main *)

(** [print_help(exec_name)]: two messages on the diagnostic stream. *)
Definition help_intro : string :=
  "Generates a C include and source file with embedded data " ++ LF
    ++ "from a list of files to be included in a separate build " ++ LF
    ++ "step" ++ LF ++ LF.

Definition help_usage (exec_name : string) : string :=
  "Usage:" ++ LF
    ++ TAB ++ exec_name ++ LF
    ++ TAB ++ TAB ++ "--function <function name> - The name of the function for" ++ LF
    ++ TAB ++ TAB ++ "                             retreiving embedded file data" ++ LF
    ++ TAB ++ TAB ++ "--header <output header file> - Header file to generate" ++ LF
    ++ TAB ++ TAB ++ "--source <source file> - Source file to generate" ++ LF
    ++ TAB ++ TAB ++ "--preserve-paths - When set, paths passed for files are" ++ LF
    ++ TAB ++ TAB ++ "                   preserved for retrieval by the retreival" ++ LF
    ++ "                       function" ++ LF
    ++ TAB ++ TAB ++ " ...<input files> - List of input files" ++ LF.

Definition print_help (exec_name : string) : W unit :=
  eprintf help_intro ;; eprintf (help_usage exec_name).

(** The five locals [main] fills while it reads its arguments. *)
Record config : Type := mkConfig {
  function_name : option string;
  source_file : option string;
  header_file : option string;
  input_files : option (list string);
  preserve_paths : bool
}.

Definition no_config : config := mkConfig None None None None false.

(** The diagnostic of the argument loop for an option that follows the input
    files. *)
Definition options_after_files_message : string :=
  "You must specify all options before listing files" ++ LF.

(** [argv[arg][0] == '-' && argv[arg][1] == '-'] *)
Definition is_long_option (a : string) : bool :=
  match a with
  | String c0 (String c1 _) => Ascii.eqb c0 "-" && Ascii.eqb c1 "-"
  | _ => false
  end.

(** [&(argv[arg][2])] *)
Definition option_name (a : string) : string :=
  match a with
  | String _ (String _ name) => name
  | _ => EmptyString
  end.

(** The argument loop, entered with [args] the arguments from [argv[arg]] on.
    [return EXIT_FAILURE] from [main] ends the process like [exit]. *)
Fixpoint parse_args (exec_name : string) (args : list string) (cfg : config)
  : W config :=
  match args with
  | [] => ret cfg
  | a :: rest =>
      if is_long_option a then
        match input_files cfg with
        | Some _ =>
            eprintf options_after_files_message ;;
            print_help exec_name ;;
            exit EXIT_FAILURE
        | None =>
            let arg_name := option_name a in
            let arg_value := hd_error rest in
            (* the [arg++] of an option that takes a value *)
            let skip_value (cfg' : config) : W config :=
              match rest with
              | [] => ret cfg'
              | _ :: rest' => parse_args exec_name rest' cfg'
              end in
            if String.eqb arg_name "source" then
              skip_value (mkConfig (function_name cfg) arg_value
                            (header_file cfg) (input_files cfg)
                            (preserve_paths cfg))
            else if String.eqb arg_name "header" then
              skip_value (mkConfig (function_name cfg) (source_file cfg)
                            arg_value (input_files cfg) (preserve_paths cfg))
            else if String.eqb arg_name "function" then
              skip_value (mkConfig arg_value (source_file cfg)
                            (header_file cfg) (input_files cfg)
                            (preserve_paths cfg))
            else if String.eqb arg_name "help" then
              print_help exec_name ;; exit EXIT_FAILURE
            else if String.eqb arg_name "preserve-paths" then
              parse_args exec_name rest
                (mkConfig (function_name cfg) (source_file cfg)
                   (header_file cfg) (input_files cfg) true)
            else
              eprintf ("Unrecognized option '--" ++ arg_name ++ "'" ++ LF) ;;
              print_help exec_name ;;
              exit EXIT_FAILURE
        end
      else
        (* [input_files = &(argv[arg]); break;] *)
        ret (match input_files cfg with
             | None => mkConfig (function_name cfg) (source_file cfg)
                         (header_file cfg) (Some (a :: rest))
                         (preserve_paths cfg)
             | Some _ => cfg
             end)
  end.

(** The checks between the argument loop and the first [fopen]; they return
    the source path and the function name, now known to be set. *)
Definition check_config (exec_name : string) (cfg : config)
  : W (string * string) :=
  match source_file cfg with
  | None =>
      eprintf ("Error: You must provide --source for the output source file"
                 ++ LF ++ LF) ;;
      print_help exec_name ;;
      exit EXIT_FAILURE
  | Some source =>
      when (match header_file cfg with None => true | Some _ => false end)
           (eprintf ("Notice: Not producing a header file because --header was not "
                       ++ "provided" ++ LF)) ;;
      match function_name cfg with
      | None =>
          eprintf ("Error: You must provide --function for the file get function "
                     ++ "name" ++ LF ++ LF) ;;
          print_help exec_name ;;
          exit EXIT_FAILURE
      | Some name => ret (source, name)
      end
  end.

(** The machine the program runs on. *)
Record world : Type := mkWorld {
  (** the input files *)
  files : filesystem;
  (** whether [fopen(path, "w")] succeeds *)
  writable : string -> bool;
  (** The C library may be handed a null pointer for a string.  The standard
      leaves that undefined.  A tolerant library (glibc) makes [fopen] of a
      null path fail and prints a null [%s] argument as [(null)]. *)
  null_tolerant : bool
}.

(** All that [main] writes to [source_fd]. *)
Definition emit_source (fs : filesystem) (cfg : config) (name : string)
  : W unit :=
  fprintf ("#include <stdlib.h>" ++ LF ++ "#include <string.h>" ++ LF) ;;
  generate_file_list (input_files cfg) (preserve_paths cfg) ;;
  generate_file_data fs (input_files cfg) ;;
  generate_file_data_sizes fs (input_files cfg) ;;
  generate_function name ;;
  fprintf LF.

(** All that [main] writes to [header_fd], under [if (header_file)]. *)
Definition emit_header (header : string) (name : string) : W unit :=
  let header_file_define_name := generate_define_name header in
  fprintf ("#ifndef _" ++ header_file_define_name ++ "_" ++ LF
             ++ "#define _" ++ header_file_define_name ++ "_" ++ LF
             ++ "#include <stdlib.h>" ++ LF
             ++ "#include <string.h>" ++ LF ++ LF) ;;
  generate_function_declaration name ;;
  fprintf (LF ++ "#endif" ++ LF).

(** What a run of the program leaves behind. *)
Record run : Type := mkRun {
  (** the exit status; [None] when the run has no defined behaviour, and
      then the other fields tell what had happened up to that point *)
  status : option nat;
  (** the messages on the diagnostic stream *)
  stderr : list string;
  (** the paths opened for writing, in order: each is created or truncated *)
  opened : list string;
  (** the calls made on [source_fd] and on [header_fd] *)
  source_out : list write;
  header_out : list write
}.

Definition main (w : world) (exec_name : string) (args : list string) : run :=
  match (cfg <- parse_args exec_name args no_config ;;
         sn <- check_config exec_name cfg ;;
         ret (cfg, sn)) (mkOut [] []) with
  | Exit st o => mkRun (Some st) (err o) [] [] []
  | Undefined o => mkRun None (err o) [] [] []
  | Ok (cfg, (source, name)) o =>
      if negb (writable w source) then
        mkRun (Some EXIT_FAILURE)
          (err o ++ [("Could not open output source file '" ++ source ++ "'" ++ LF)%string])
          [] [] []
      else
        (* [source_fd] is open; now [fopen(header_file, "w")] *)
        match header_file cfg with
        | None =>
            if null_tolerant w then
              mkRun (Some EXIT_FAILURE)
                (err o ++ [("Could not open output header file '(null)'" ++ LF)%string])
                [source] [] []
            else mkRun None (err o) [source] [] []
        | Some header =>
            if negb (writable w header) then
              mkRun (Some EXIT_FAILURE)
                (err o ++ [("Could not open output header file '" ++ header ++ "'" ++ LF)%string])
                [source] [] []
            else
              match emit_source (files w) cfg name (mkOut [] (err o)) with
              | Exit st o1 => mkRun (Some st) (err o1) [source; header] (fd o1) []
              | Undefined o1 => mkRun None (err o1) [source; header] (fd o1) []
              | Ok _ o1 =>
                  match emit_header header name (mkOut [] (err o1)) with
                  | Ok _ o2 =>
                      mkRun (Some EXIT_SUCCESS) (err o2) [source; header]
                        (fd o1) (fd o2)
                  | Exit st o2 =>
                      mkRun (Some st) (err o2) [source; header] (fd o1) (fd o2)
                  | Undefined o2 =>
                      mkRun None (err o2) [source; header] (fd o1) (fd o2)
                  end
              end
        end
  end.

(* ================================================================== *)
(** * The generated file as C: tokens *)

(** The tokens a C compiler cuts the generated text into (the subset the
    tables use: identifiers, integer constants, punctuators; white space and
    comments separate tokens and are dropped).

    The lexer below is translation phase 3.  It does not replace trigraphs
    or join a line that ends in a backslash with the next one (phases 1 and
    2).  The generator writes neither a backslash nor a [?] in front of the
    lookup function except inside the comments that hold the paths, where
    these phases matter only if they bring a [*] and a [/] together; the
    statements about the text exclude that with [comment_safe]. *)
Inductive token : Type :=
| TIdent (s : string)
| TNum (n : N)
| TPunct (c : ascii).

Inductive lex_state : Type :=
| LStart
| LIdent (acc : string)       (* inside an identifier *)
| LZero                       (* after a leading [0] *)
| LNum (base : N) (acc : N)   (* inside an integer constant *)
| LSlash                      (* after [/] *)
| LBlock                      (* inside a block comment *)
| LBlockStar                  (* inside a block comment, after [*] *)
| LLine.                      (* inside a line comment *)

Definition in_range (lo hi c : ascii) : bool :=
  (code lo <=? code c)%N && (code c <=? code hi)%N.

Definition is_space (c : ascii) : bool :=
  (code c =? 32)%N || in_range (ascii_of_nat 9) (ascii_of_nat 13) c.

Definition is_letter (c : ascii) : bool :=
  in_range "a" "z" c || in_range "A" "Z" c || Ascii.eqb c "_".

Definition is_digit (c : ascii) : bool := in_range "0" "9" c.

(** The value of [c] as a digit in [base], if it is one. *)
Definition digit_value (base : N) (c : ascii) : option N :=
  let v :=
    if is_digit c then Some (code c - code "0")%N
    else if in_range "a" "f" c then Some (code c - code "a" + 10)%N
    else if in_range "A" "F" c then Some (code c - code "A" + 10)%N
    else None in
  match v with
  | Some d => if (d <? base)%N then Some d else None
  | None => None
  end.

(** Reading [c] when no token is under way. *)
Definition lex_start (c : ascii) : list token * lex_state :=
  if is_space c then ([], LStart)
  else if Ascii.eqb c "/" then ([], LSlash)
  else if Ascii.eqb c "0" then ([], LZero)
  else if is_digit c then ([], LNum 10 (code c - code "0"))
  else if is_letter c then ([], LIdent (String c EmptyString))
  else ([TPunct c], LStart).

(** The token that ends when the input does, or when a character that cannot
    continue it arrives. *)
Definition lex_flush (st : lex_state) : list token :=
  match st with
  | LIdent acc => [TIdent acc]
  | LZero => [TNum 0]
  | LNum _ acc => [TNum acc]
  | LSlash => [TPunct "/"]
  | LStart | LBlock | LBlockStar | LLine => []
  end.

Definition lex_restart (st : lex_state) (c : ascii) : list token * lex_state :=
  let (ts, st') := lex_start c in (lex_flush st ++ ts, st').

Definition lex_step (st : lex_state) (c : ascii) : list token * lex_state :=
  match st with
  | LStart => lex_start c
  | LIdent acc =>
      if is_letter c || is_digit c
      then ([], LIdent (acc ++ String c EmptyString))
      else lex_restart st c
  | LZero =>
      if Ascii.eqb c "x" || Ascii.eqb c "X" then ([], LNum 16 0)
      else match digit_value 8 c with
           | Some d => ([], LNum 8 d)
           | None => lex_restart st c
           end
  | LNum base acc =>
      match digit_value base c with
      | Some d => ([], LNum base (acc * base + d))
      | None => lex_restart st c
      end
  | LSlash =>
      if Ascii.eqb c "*" then ([], LBlock)
      else if Ascii.eqb c "/" then ([], LLine)
      else lex_restart st c
  | LBlock => if Ascii.eqb c "*" then ([], LBlockStar) else ([], LBlock)
  | LBlockStar =>
      if Ascii.eqb c "/" then ([], LStart)
      else if Ascii.eqb c "*" then ([], LBlockStar)
      else ([], LBlock)
  | LLine => if (code c =? 10)%N then ([], LStart) else ([], LLine)
  end.

Fixpoint lex_from (st : lex_state) (s : string) : list token :=
  match s with
  | EmptyString => lex_flush st
  | String c rest => let (ts, st') := lex_step st c in ts ++ lex_from st' rest
  end.

Definition lex (s : string) : list token := lex_from LStart s.

(** The tokens one write call contributes when the path of every comment
    call stays inside its comment: such a call contributes none, and every
    other call's text is lexed on its own.  This is the reading of the
    writes, not of the file: for a path that ends its comment the text of
    the file, [lex (render ws)], holds more tokens than [tokens ws].  The
    two agree for paths without [*] ([comment_safe]). *)
Definition tokens_of_write (w : write) : list token :=
  match w with
  | Comment _ => []
  | _ => lex (render_write w)
  end.

Definition tokens (ws : list write) : list token :=
  flat_map tokens_of_write ws.

(* ================================================================== *)
(** * The generated file as C: array initializers *)

(** One element of a table: a compound literal [(char[]){ ... }] with its
    elements, or an integer constant. *)
Inductive item : Type :=
| Compound (elems : list N)
| Const (n : N).

Definition token_eqb (a b : token) : bool :=
  match a, b with
  | TIdent s, TIdent s' => String.eqb s s'
  | TNum n, TNum n' => N.eqb n n'
  | TPunct c, TPunct c' => Ascii.eqb c c'
  | _, _ => false
  end.

(** The tokens of [(char[]){]. *)
Definition compound_open : list token :=
  [TPunct "("; TIdent "char"; TPunct "["; TPunct "]"; TPunct ")"; TPunct "{"].

Inductive parse_state : Type :=
| PItem                   (* an element of the table, or its closing brace *)
| PSep                    (* after an element: a comma or the closing brace *)
| POpen (k : nat)         (* [k] tokens of [compound_open] read *)
| PElem (bs : list N)     (* inside a compound literal: a constant or [}] *)
| PElemSep (bs : list N). (* inside one, after a constant: [,] or [}] *)

Definition is_punct (c : ascii) (t : token) : bool := token_eqb t (TPunct c).

(** The elements of a brace-enclosed initializer, read from just after its
    opening brace; also returns the tokens after the closing brace. *)
Fixpoint parse_items (st : parse_state) (acc : list item) (ts : list token)
  : option (list item * list token) :=
  match ts with
  | [] => None
  | t :: rest =>
      match st with
      | PItem =>
          if is_punct "}" t then Some (acc, rest)
          else if is_punct "(" t then parse_items (POpen 1) acc rest
          else match t with
               | TNum n => parse_items PSep (acc ++ [Const n]) rest
               | _ => None
               end
      | PSep =>
          if is_punct "}" t then Some (acc, rest)
          else if is_punct "," t then parse_items PItem acc rest
          else None
      | POpen k =>
          match nth_error compound_open k with
          | Some t' =>
              if token_eqb t t'
              then parse_items (if (S k =? 6)%nat then PElem [] else POpen (S k))
                     acc rest
              else None
          | None => None
          end
      | PElem bs =>
          if is_punct "}" t then parse_items PSep (acc ++ [Compound bs]) rest
          else match t with
               | TNum n => parse_items (PElemSep (bs ++ [n])) acc rest
               | _ => None
               end
      | PElemSep bs =>
          if is_punct "}" t then parse_items PSep (acc ++ [Compound bs]) rest
          else if is_punct "," t then parse_items (PElem bs) acc rest
          else None
      end
  end.

Fixpoint starts_with (pre ts : list token) : bool :=
  match pre, ts with
  | [], _ => true
  | p :: pre', t :: ts' => token_eqb p t && starts_with pre' ts'
  | _ :: _, [] => false
  end.

(** The tokens that follow the declarator [name[] = {] of an array. *)
Fixpoint find_array (name : string) (ts : list token) : option (list token) :=
  match ts with
  | [] => None
  | t :: rest =>
      if token_eqb t (TIdent name)
         && starts_with [TPunct "["; TPunct "]"; TPunct "="; TPunct "{"] rest
      then Some (skipn 4 rest)
      else find_array name rest
  end.

(** The initializer of the array [name] declared in a file. *)
Definition read_array (name : string) (ts : list token) : option (list item) :=
  match find_array name ts with
  | None => None
  | Some body => option_map fst (parse_items PItem [] body)
  end.

(** A [const char*]: null, or the address of a [char[]] object, which the
    model identifies with the object's contents. *)
Inductive cptr : Type :=
| Null
| Ptr (arr : list ascii).

(** An initializer of type [const char*]. *)
Definition as_pointer (i : item) : option cptr :=
  match i with
  | Compound bs => Some (Ptr (map ascii_of_N bs))
  | Const 0 => Some Null
  | Const _ => None
  end.

(** An initializer of type [size_t]. *)
Definition as_size (i : item) : option N :=
  match i with
  | Const n => Some n
  | Compound _ => None
  end.

Fixpoint all_some {A} (l : list (option A)) : option (list A) :=
  match l with
  | [] => Some []
  | None :: _ => None
  | Some a :: l' => option_map (cons a) (all_some l')
  end.

(** The three arrays of a generated source file. *)
Record tables : Type := mkTables {
  EMBEDDED_FILE_NAMES : list cptr;
  EMBEDDED_FILE_DATA : list cptr;
  EMBEDDED_FILE_DATA_SIZES : list N
}.

Definition read_pointers (name : string) (ts : list token)
  : option (list cptr) :=
  match read_array name ts with
  | None => None
  | Some items => all_some (map as_pointer items)
  end.

Definition read_sizes (name : string) (ts : list token) : option (list N) :=
  match read_array name ts with
  | None => None
  | Some items => all_some (map as_size items)
  end.

Definition read_tables (ts : list token) : option tables :=
  match read_pointers "EMBEDDED_FILE_NAMES" ts,
        read_pointers "EMBEDDED_FILE_DATA" ts,
        read_sizes "EMBEDDED_FILE_DATA_SIZES" ts with
  | Some n, Some d, Some s => Some (mkTables n d s)
  | _, _, _ => None
  end.

(* ================================================================== *)
(** * The generated lookup function *)

(** How a call of the generated function ends: it returns a pointer and
    leaves [*length] holding a value (when [length] is not null), or it reads
    outside an array. *)
Inductive lookup_result : Type :=
| Returned (value : cptr) (length : option N)
| OutOfBounds.

(** The body of the function [generate_function] prints, run on the tables
    [t].  [length] is [None] for a null pointer and [Some v] for a pointer to
    a slot that holds [v].  The loop is entered with [i] and [rest], the
    elements of [EMBEDDED_FILE_NAMES] from index [i] on; reading element [i]
    past the end of the array is a read out of bounds. *)
Fixpoint lookup_loop (t : tables) (filename : string) (length : option N)
    (i : nat) (rest : list cptr) : lookup_result :=
  match rest with
  | [] => OutOfBounds
  | Null :: _ => Returned Null length        (* [EMBEDDED_FILE_NAMES[i] != 0] fails *)
  | Ptr arr :: rest' =>
      match c_str arr with
      | None => OutOfBounds                  (* [strcmp] runs off the object *)
      | Some entry =>
          if String.eqb filename entry then
            match length with
            | Some _ =>
                match nth_error (EMBEDDED_FILE_DATA_SIZES t) i,
                      nth_error (EMBEDDED_FILE_DATA t) i with
                | Some n, Some p => Returned p (Some n)
                | _, _ => OutOfBounds
                end
            | None =>
                match nth_error (EMBEDDED_FILE_DATA t) i with
                | Some p => Returned p None
                | None => OutOfBounds
                end
            end
          else lookup_loop t filename length (S i) rest'
      end
  end.

Definition lookup (t : tables) (filename : string) (length : option N)
  : lookup_result :=
  lookup_loop t filename length 0 (EMBEDDED_FILE_NAMES t).

(* ================================================================== *)
(** * Definitions that follow the specification's words *)

(** The include-guard character as the specification describes it: lowercase
    letters are uppercased, uppercase letters and digits pass through, and any
    other character becomes an underscore. *)
Definition guard_char_with_digits (c : ascii) : ascii :=
  if in_range "a" "z" c then ascii_of_N (code c - 32)
  else if in_range "A" "Z" c || in_range "0" "9" c then c
  else "_"%char.

Fixpoint guard_with_digits (filename : string) : string :=
  match filename with
  | EmptyString => EmptyString
  | String c rest => String (guard_char_with_digits c) (guard_with_digits rest)
  end.

(** The display name of an input path under the [--preserve-paths] policy. *)
Definition display_name (preserve_paths : bool) (path : string) : string :=
  if preserve_paths then path else plain_name path.

(* ================================================================== *)
(** * Token sequences of initializers *)

(** The tokens of constants separated by commas. *)
Definition consts_tokens (ns : list N) : list token :=
  match ns with
  | [] => []
  | n :: rest => TNum n :: flat_map (fun m => [TPunct ","; TNum m]) rest
  end.

Definition item_tokens (i : item) : list token :=
  match i with
  | Compound ns => compound_open ++ consts_tokens ns ++ [TPunct "}"]
  | Const n => [TNum n]
  end.

(** The tokens of table elements separated by commas. *)
Definition items_tokens (items : list item) : list token :=
  match items with
  | [] => []
  | i :: rest =>
      item_tokens i ++ flat_map (fun j => TPunct "," :: item_tokens j) rest
  end.

(** The tokens of the definition [qualifiers name[] = { items };]. *)
Definition array_tokens (qualifiers : list token) (name : string)
    (items : list item) : list token :=
  qualifiers
    ++ [TIdent name; TPunct "["; TPunct "]"; TPunct "="; TPunct "{"]
    ++ items_tokens items ++ [TPunct "}"; TPunct ";"].

(** [static const char*] and [static size_t]. *)
Definition pointer_qualifiers : list token :=
  [TIdent "static"; TIdent "const"; TIdent "char"; TPunct "*"].
Definition size_qualifiers : list token :=
  [TIdent "static"; TIdent "size_t"].

(** A [char[]] object as a table element. *)
Definition char_array (arr : list ascii) : item :=
  Compound (map N_of_ascii arr).

(* ================================================================== *)
(** * Notions used in the statements *)

(** No token of [ts] is the identifier [name]. *)
Definition without_ident (name : string) (ts : list token) : Prop :=
  Forall (fun t => token_eqb t (TIdent name) = false) ts.

(** The computation [m] returns after making the calls [ws] on its stream,
    and prints no diagnostic. *)
Definition appends (m : W unit) (ws : list write) : Prop :=
  forall o, m o = Ok tt (mkOut (fd o ++ ws) (err o)).

(** The contents of the files [l], when every one of them opens. *)
Fixpoint read_all (fs : filesystem) (l : list string)
  : option (list (list ascii)) :=
  match l with
  | [] => Some []
  | path :: l' =>
      match fs path, read_all fs l' with
      | Some content, Some rest => Some (content :: rest)
      | _, _ => None
      end
  end.

(** How the argument loop ends when entered in state [o]: with a
    configuration and nothing printed, or with [EXIT_FAILURE] and messages. *)
Inductive parse_outcome (o : out) : res config -> Prop :=
| ParseOk (cfg' : config) :
    parse_outcome o (Ok cfg' o)
| ParseFail (msgs : list string) :
    parse_outcome o (Exit EXIT_FAILURE (mkOut (fd o) (err o ++ msgs))).

(** The tables of the source file written for the paths [l], whose contents
    are [contents]. *)
Definition tables_of (preserve : bool) (l : list string)
    (contents : list (list ascii)) : tables :=
  mkTables
    (map (fun p => Ptr (c_array (display_name preserve p))) l ++ [Ptr [NUL]])
    (map (fun c => Ptr (c ++ [NUL])) contents)
    (map (fun c => N.of_nat (List.length c)) contents).

(* ================================================================== *)
(** * The scenario of the specification *)

(** Two input files: [a.txt] holds [hi], [sub/b.txt] holds [!]. *)
Definition scenario_files : filesystem :=
  fun path =>
    if String.eqb path "a.txt" then Some (chars "hi")
    else if String.eqb path "sub/b.txt" then Some (chars "!")
    else None.

Definition scenario_world : world :=
  mkWorld scenario_files (fun _ => true) true.

Definition scenario_args : list string :=
  ["--function"; "get_file"; "--source"; "files.c"; "--header"; "files.h";
   "a.txt"; "sub/b.txt"].

(** The scenario with one more input file, whose name looks like an
    option. *)
Definition dashed_files : filesystem :=
  fun path =>
    if String.eqb path "--preserve-paths" then Some (chars "?")
    else scenario_files path.

Definition dashed_world : world := mkWorld dashed_files (fun _ => true) true.

(* ================================================================== *)
(** * The text of the generated file *)

(** The generator prints every path raw between [/*] and [*/]
    (embed.c:97, 133, 170) and escapes nothing.  A compiler ends the comment
    at the first [*/] it sees once trigraphs are replaced and lines that end
    in a backslash are joined, so a path can end its own comment with the
    two characters themselves, or with a [*] and a [/] that these steps
    bring together.  Neither step makes a [*]: a path that holds no [*] is
    printed as a comment by every compiler.  That is the condition used
    here. *)
Fixpoint comment_safe (s : string) : bool :=
  match s with
  | EmptyString => true
  | String c rest => negb (Ascii.eqb c "*") && comment_safe rest
  end.

(** Whether the lexer [lex_from], inside a block comment, stays inside it
    over the text [s]: [s] does not hold the two characters that end a
    comment.  [star] tells whether the character before [s] is a [*]. *)
Fixpoint stays_in_comment (star : bool) (s : string) : bool :=
  match s with
  | EmptyString => true
  | String c rest =>
      if star && Ascii.eqb c "/" then false
      else stays_in_comment (Ascii.eqb c "*") rest
  end.

(** The input paths that [main] takes from the command line [args]: the
    arguments from the first one on that the argument loop does not read as
    an option or as the value of one. *)
Definition input_paths (exec_name : string) (args : list string)
  : list string :=
  match parse_args exec_name args no_config (mkOut [] []) with
  | Ok cfg _ =>
      match input_files cfg with
      | Some l => l
      | None => []
      end
  | Exit _ _ | Undefined _ => []
  end.






(** White space and the comma end whatever token is under way. *)
Definition clean (c : ascii) : bool := is_space c || Ascii.eqb c ",".

Definition starts_clean (s : string) : Prop :=
  match s with
  | EmptyString => True
  | String c _ => clean c = true
  end.

(** The text of the writes [ws], lexed in front of any text, gives the
    tokens of [ws] and leaves the lexer ready for that text. *)
Definition reads_closed (ws : list write) : Prop :=
  forall rest, lex (render ws ++ rest) = tokens ws ++ lex rest.

(** The same, in front of a text that starts with white space or a comma
    (the writes may end inside a number). *)
Definition reads_open (ws : list write) : Prop :=
  forall rest, starts_clean rest ->
               lex (render ws ++ rest) = tokens ws ++ lex rest.

(** The text of [ws], if any, starts with white space or a comma. *)
Definition clean_head (ws : list write) : Prop :=
  forall rest, starts_clean rest -> starts_clean (render ws ++ rest).

(** Whether the diagnostic stream of a result holds that message. *)
Definition reports_option_after_files {A} (r : res A) : bool :=
  match r with
  | Ok _ o | Exit _ o | Undefined o =>
      existsb (String.eqb options_after_files_message) (err o)
  end.

(* ================================================================== *)
(** * Notions used in the further properties *)

(** The notice [main] prints when no header path was given. *)
Definition no_header_notice : string :=
  "Notice: Not producing a header file because --header was not "
    ++ "provided" ++ LF.

(** What the configuration checks print when they pass. *)
Definition check_notice (cfg : config) : list string :=
  match header_file cfg with
  | None => [no_header_notice]
  | Some _ => []
  end.

(** The diagnostic of the data pass for a path that does not open. *)
Definition could_not_open (path : string) : string :=
  "Could not open file: '" ++ path ++ "'" ++ LF.

(** The text of the header file for the header path [header] and the
    function name [name]. *)
Definition header_text (header name : string) : string :=
  "#ifndef _" ++ generate_define_name header ++ "_" ++ LF
    ++ "#define _" ++ generate_define_name header ++ "_" ++ LF
    ++ "#include <stdlib.h>" ++ LF
    ++ "#include <string.h>" ++ LF ++ LF
    ++ "const char* " ++ name ++ "(const char* filename, size_t* length);" ++ LF
    ++ LF ++ "#endif" ++ LF.

(** What [main] does once the argument loop and the checks have passed, with
    [e] the diagnostics printed so far. *)
Definition main_after_checks (w : world) (cfg : config)
    (source name : string) (e : list string) : run :=
  if negb (writable w source) then
    mkRun (Some EXIT_FAILURE)
      (e ++ [("Could not open output source file '" ++ source ++ "'" ++ LF)%string])
      [] [] []
  else
    match header_file cfg with
    | None =>
        if null_tolerant w then
          mkRun (Some EXIT_FAILURE)
            (e ++ [("Could not open output header file '(null)'" ++ LF)%string])
            [source] [] []
        else mkRun None e [source] [] []
    | Some header =>
        if negb (writable w header) then
          mkRun (Some EXIT_FAILURE)
            (e ++ [("Could not open output header file '" ++ header ++ "'" ++ LF)%string])
            [source] [] []
        else
          match emit_source (files w) cfg name (mkOut [] e) with
          | Exit st o1 => mkRun (Some st) (err o1) [source; header] (fd o1) []
          | Undefined o1 => mkRun None (err o1) [source; header] (fd o1) []
          | Ok _ o1 =>
              match emit_header header name (mkOut [] (err o1)) with
              | Ok _ o2 =>
                  mkRun (Some EXIT_SUCCESS) (err o2) [source; header]
                    (fd o1) (fd o2)
              | Exit st o2 =>
                  mkRun (Some st) (err o2) [source; header] (fd o1) (fd o2)
              | Undefined o2 =>
                  mkRun None (err o2) [source; header] (fd o1) (fd o2)
              end
          end
    end.

(** How the writes on the source stream end, from a fresh stream. *)
Inductive source_outcome (fs : filesystem) (cfg : config) (e : list string)
  : res unit -> Prop :=
| SourceWritten (l : list string) (contents : list (list ascii))
    (ws : list write) :
    input_files cfg = Some l ->
    read_all fs l = Some contents ->
    read_tables (tokens ws)
    = Some (tables_of (preserve_paths cfg) l contents) ->
    source_outcome fs cfg e (Ok tt (mkOut ws e))
| SourceStopped (pre rest : list string) (path : string)
    (contents : list (list ascii)) (w1 ws : list write) :
    input_files cfg = Some (pre ++ path :: rest) ->
    read_all fs pre = Some contents ->
    fs path = None ->
    appends (generate_file_list (Some (pre ++ path :: rest))
               (preserve_paths cfg)) w1 ->
    source_outcome fs cfg e
      (Exit 1 (mkOut ([Text ("#include <stdlib.h>" ++ LF
                               ++ "#include <string.h>" ++ LF)]
                        ++ w1 ++ ws)
                 (e ++ [could_not_open path])))
| SourceUndefined (ws : list write) :
    input_files cfg = None ->
    source_outcome fs cfg e (Undefined (mkOut ws e)).


(** A machine on which [files.h] cannot be written. *)
Definition header_locked_world : world :=
  mkWorld scenario_files (fun p => negb (String.eqb p "files.h")) true.

(** A C identifier: a letter or an underscore, then letters, digits and
    underscores. *)
Fixpoint ident_chars (s : string) : bool :=
  match s with
  | EmptyString => true
  | String c rest => (is_letter c || is_digit c) && ident_chars rest
  end.

Definition is_identifier (s : string) : bool :=
  match s with
  | EmptyString => false
  | String c rest => is_letter c && ident_chars rest
  end.

(** The tokens of [const char* name(const char* filename, size_t* length)]. *)
Definition signature_tokens (name : string) : list token :=
  [TIdent "const"; TIdent "char"; TPunct "*"; TIdent name; TPunct "(";
   TIdent "const"; TIdent "char"; TPunct "*"; TIdent "filename"; TPunct ",";
   TIdent "size_t"; TPunct "*"; TIdent "length"; TPunct ")"].

(** Whether the text [s] holds a line break. *)
Fixpoint has_newline (s : string) : bool :=
  match s with
  | EmptyString => false
  | String c rest => (code c =? 10)%N || has_newline rest
  end.

(** The hex literals per line of output.  [hex_rows cur ws] follows the
    calls [ws] from a line that holds [cur] literals already: it gives the
    number of literals on each line that [ws] ends, and on the line it
    leaves open.  A comment call ends its line. *)
Fixpoint hex_rows (cur : nat) (ws : list write) : list nat * nat :=
  match ws with
  | [] => ([], cur)
  | Hex _ :: rest => hex_rows (S cur) rest
  | Zu _ :: rest => hex_rows cur rest
  | Text s :: rest =>
      if has_newline s
      then let (rows, c) := hex_rows 0 rest in (cur :: rows, c)
      else hex_rows cur rest
  | Comment _ :: rest => let (rows, c) := hex_rows 0 rest in (cur :: rows, c)
  end.


(* ################################################################## *)
(** * Properties *)

(* ================================================================== *)
(** * Properties of [generate_define_name] *)

Lemma define_char_cases (c : ascii) :
  (in_range "A" "Z" c = true /\ define_char c = c)
  \/ (in_range "a" "z" c = true /\ in_range "A" "Z" (define_char c) = true
      /\ (code (define_char c) - code "A" = code c - code "a")%N)
  \/ (in_range "A" "Z" c = false /\ in_range "a" "z" c = false
      /\ define_char c = "_"%char).
Proof.
  destruct c as [[] [] [] [] [] [] [] []]; vm_compute; intuition congruence.
Qed.

Lemma generate_define_name_length (filename : string) :
  String.length (generate_define_name filename) = String.length filename.
Proof.
  induction filename as [|c rest IH]; simpl; [reflexivity | now rewrite IH].
Qed.

Lemma generate_define_name_get (filename : string) (i : nat) :
  String.get i (generate_define_name filename)
  = option_map define_char (String.get i filename).
Proof.
  revert i; induction filename as [|c rest IH]; intros i; simpl.
  - reflexivity.
  - destruct i as [|i]; simpl; [reflexivity | apply IH].
Qed.

(** C4, as stated, fails: a digit of the header name does not pass through;
    [generate_define_name] turns it into an underscore, like every character
    that is not a letter. *)
Lemma define_name_digit_replaced :
  generate_define_name "a1.h" = "A__H"
  /\ generate_define_name "a1.h" <> guard_with_digits "a1.h".
Proof.
  split; [reflexivity | vm_compute; discriminate].
Qed.

(** C4, amended: the include-guard token has one character per character of
    the header name; an uppercase letter is kept, a lowercase letter becomes
    the uppercase letter at the same place in the alphabet, and every other
    character, digits included, becomes an underscore; so the token holds
    uppercase ASCII letters and underscores only. *)
Theorem define_name_letters_and_underscores
    (filename : string) (i : nat) (c : ascii)
    (Hc : String.get i filename = Some c) :
  String.length (generate_define_name filename) = String.length filename
  /\ exists r : ascii,
       String.get i (generate_define_name filename) = Some r
       /\ (in_range "A" "Z" r = true \/ r = "_"%char)
       /\ (in_range "A" "Z" c = true -> r = c)
       /\ (in_range "a" "z" c = true ->
           in_range "A" "Z" r = true
           /\ (code r - code "A" = code c - code "a")%N)
       /\ (in_range "A" "Z" c = false -> in_range "a" "z" c = false ->
           r = "_"%char).
Proof.
  split; [apply generate_define_name_length|].
  exists (define_char c).
  rewrite generate_define_name_get, Hc. split; [reflexivity|].
  destruct (define_char_cases c) as [[Hu He] | [[Hl [Hr Hp]] | [Hu [Hl He]]]].
  - rewrite He. repeat split; auto; intros; try congruence.
    destruct c as [[] [] [] [] [] [] [] []]; vm_compute in *; congruence.
  - repeat split; auto; intros; try congruence.
    destruct c as [[] [] [] [] [] [] [] []]; vm_compute in *; congruence.
  - rewrite He. repeat split; auto; intros; congruence.
Qed.

Lemma define_name_letters_and_underscores_witness :
  String.get 1 "a1.h" = Some "1"%char
  /\ String.length (generate_define_name "a1.h") = String.length "a1.h"
  /\ exists r : ascii,
       String.get 1 (generate_define_name "a1.h") = Some r
       /\ (in_range "A" "Z" r = true \/ r = "_"%char)
       /\ (in_range "A" "Z" "1" = true -> r = "1"%char)
       /\ (in_range "a" "z" "1" = true ->
           in_range "A" "Z" r = true
           /\ (code r - code "A" = code "1" - code "a")%N)
       /\ (in_range "A" "Z" "1" = false -> in_range "a" "z" "1" = false ->
           r = "_"%char).
Proof.
  split; [reflexivity|].
  apply (define_name_letters_and_underscores "a1.h" 1 "1"%char).
  reflexivity.
Defined.

(* ================================================================== *)
(** * Computations that only write *)

Lemma appends_ret : appends (ret tt) [].
Proof. intros [f e]. unfold ret. simpl. now rewrite app_nil_r. Qed.

Lemma appends_put (w : write) : appends (put w) [w].
Proof. intros o. reflexivity. Qed.

Lemma appends_fprintf (s : string) : appends (fprintf s) [Text s].
Proof. apply appends_put. Qed.

Lemma appends_output_hex (c : ascii) : appends (output_hex c) [Hex c].
Proof. apply appends_put. Qed.

Lemma appends_bind (m k : W unit) (ws ws' : list write) :
  appends m ws -> appends k ws' -> appends (m ;; k) (ws ++ ws').
Proof.
  intros Hm Hk o. unfold bind. rewrite Hm, Hk. simpl. now rewrite app_assoc.
Qed.

Lemma appends_when (b : bool) (m : W unit) (ws : list write) :
  appends m ws -> appends (when b m) (if b then ws else []).
Proof. destruct b; simpl; [easy | intros _; apply appends_ret]. Qed.

(** When the first computation only writes, the second one decides. *)
Lemma bind_appends {B} (m : W unit) (k : W B) (ws : list write) (o : out) :
  appends m ws -> (m ;; k) o = k (mkOut (fd o ++ ws) (err o)).
Proof. intros Hm. unfold bind. now rewrite Hm. Qed.

Create HintDb appends.

#[global] Hint Resolve appends_ret appends_put appends_fprintf
  appends_output_hex appends_bind appends_when : appends.

(* ================================================================== *)
(** * Tokens of the calls the emitters make *)

Lemma tokens_app (a b : list write) : tokens (a ++ b) = tokens a ++ tokens b.
Proof. apply flat_map_app. Qed.

(** ["0x%02X"] prints a constant whose value is the byte. *)
Lemma lex_hex_literal (c : ascii) : lex (hex_literal c) = [TNum (N_of_ascii c)].
Proof. destruct c as [[] [] [] [] [] [] [] []]; vm_compute; reflexivity. Qed.

Lemma tokens_hex (c : ascii) : tokens_of_write (Hex c) = [TNum (N_of_ascii c)].
Proof. apply lex_hex_literal. Qed.

(** Decimal digits, read from the left with [acc] the value so far. *)
Lemma lex_decimal_digits (d : Decimal.uint) (acc : positive) :
  lex_from (LNum 10 (Npos acc)) (NilEmpty.string_of_uint d)
  = [TNum (Npos (Pos.of_uint_acc d acc))].
Proof.
  revert acc; induction d as [|d IHd|d IHd|d IHd|d IHd|d IHd|d IHd|d IHd|d IHd
                                |d IHd|d IHd]; intros acc;
    [reflexivity | ..];
    cbn [NilEmpty.string_of_uint lex_from Pos.of_uint_acc];
    match goal with
    | |- context [lex_step (LNum 10 (Npos acc)) ?c] =>
        let v := eval vm_compute in (digit_value 10 c) in
        match v with
        | Some ?k =>
            change (lex_step (LNum 10 (Npos acc)) c)
              with (@nil token, LNum 10 (Npos acc * 10 + k))
        end
    end;
    cbn [app];
    match goal with
    | |- lex_from (LNum 10 ?n) _ = [TNum (Npos (Pos.of_uint_acc _ ?p))] =>
        replace n with (Npos p) by lia
    end;
    apply IHd.
Qed.

Lemma unorm_fixed_zero (d : Decimal.uint) :
  Decimal.unorm (Decimal.D0 d) = Decimal.D0 d -> d = Decimal.Nil.
Proof.
  rewrite DecimalFacts.unorm_D0. unfold Decimal.unorm.
  destruct (Decimal.nzhead d) eqn:E; intros H; try discriminate.
  - now inversion H.
  - exfalso. apply (DecimalFacts.nzhead_nonzero d u). congruence.
Qed.

(** ["%zu"] prints a constant whose value is the number. *)
Lemma lex_decimal (n : N) : lex (TAB ++ decimal n) = [TNum n].
Proof.
  unfold decimal.
  assert (Hn : Decimal.unorm (N.to_uint n) = N.to_uint n).
  { rewrite <- (DecimalN.Unsigned.to_of (N.to_uint n)).
    now rewrite DecimalN.Unsigned.of_to. }
  rewrite <- (DecimalN.Unsigned.of_to n) at 2.
  destruct (N.to_uint n) as [|d|d|d|d|d|d|d|d|d|d] eqn:E.
  - discriminate Hn.
  - apply unorm_fixed_zero in Hn. subst d. reflexivity.
  - change (lex (TAB ++ NilEmpty.string_of_uint (Decimal.D1 d)))
      with (lex_from (LNum 10 1) (NilEmpty.string_of_uint d)).
    now rewrite lex_decimal_digits.
  - change (lex (TAB ++ NilEmpty.string_of_uint (Decimal.D2 d)))
      with (lex_from (LNum 10 2) (NilEmpty.string_of_uint d)).
    now rewrite lex_decimal_digits.
  - change (lex (TAB ++ NilEmpty.string_of_uint (Decimal.D3 d)))
      with (lex_from (LNum 10 3) (NilEmpty.string_of_uint d)).
    now rewrite lex_decimal_digits.
  - change (lex (TAB ++ NilEmpty.string_of_uint (Decimal.D4 d)))
      with (lex_from (LNum 10 4) (NilEmpty.string_of_uint d)).
    now rewrite lex_decimal_digits.
  - change (lex (TAB ++ NilEmpty.string_of_uint (Decimal.D5 d)))
      with (lex_from (LNum 10 5) (NilEmpty.string_of_uint d)).
    now rewrite lex_decimal_digits.
  - change (lex (TAB ++ NilEmpty.string_of_uint (Decimal.D6 d)))
      with (lex_from (LNum 10 6) (NilEmpty.string_of_uint d)).
    now rewrite lex_decimal_digits.
  - change (lex (TAB ++ NilEmpty.string_of_uint (Decimal.D7 d)))
      with (lex_from (LNum 10 7) (NilEmpty.string_of_uint d)).
    now rewrite lex_decimal_digits.
  - change (lex (TAB ++ NilEmpty.string_of_uint (Decimal.D8 d)))
      with (lex_from (LNum 10 8) (NilEmpty.string_of_uint d)).
    now rewrite lex_decimal_digits.
  - change (lex (TAB ++ NilEmpty.string_of_uint (Decimal.D9 d)))
      with (lex_from (LNum 10 9) (NilEmpty.string_of_uint d)).
    now rewrite lex_decimal_digits.
Qed.

Lemma tokens_zu (n : N) : tokens_of_write (Zu n) = [TNum n].
Proof. apply lex_decimal. Qed.

(* ================================================================== *)
(** * Reading back the tokens of an initializer *)

Lemma token_eqb_refl (t : token) : token_eqb t t = true.
Proof.
  destruct t; simpl;
    [apply String.eqb_refl | apply N.eqb_refl | apply Ascii.eqb_refl].
Qed.

(** The constants of a compound literal, after the first one. *)
Lemma parse_more_consts (ns bs : list N) (acc : list item) (rest : list token) :
  parse_items (PElemSep bs) acc
    (flat_map (fun m => [TPunct ","; TNum m]) ns ++ TPunct "}" :: rest)
  = parse_items PSep (acc ++ [Compound (bs ++ ns)]) rest.
Proof.
  revert bs; induction ns as [|n ns IH]; intros bs.
  - simpl. now rewrite app_nil_r.
  - cbn [flat_map app parse_items is_punct token_eqb].
    change (Ascii.eqb "," "}") with false.
    change (Ascii.eqb "," ",") with true. cbn iota.
    rewrite IH. now rewrite <- app_assoc.
Qed.

Lemma parse_consts (ns : list N) (acc : list item) (rest : list token) :
  parse_items (PElem []) acc (consts_tokens ns ++ TPunct "}" :: rest)
  = parse_items PSep (acc ++ [Compound ns]) rest.
Proof.
  destruct ns as [|n ns].
  - reflexivity.
  - cbn [consts_tokens app parse_items is_punct token_eqb].
    now rewrite parse_more_consts.
Qed.

(** One element of a table. *)
Lemma parse_item (i : item) (acc : list item) (rest : list token) :
  parse_items PItem acc (item_tokens i ++ rest)
  = parse_items PSep (acc ++ [i]) rest.
Proof.
  destruct i as [ns|n].
  - unfold item_tokens. rewrite <- !app_assoc.
    change (parse_items PItem acc
              (compound_open ++ consts_tokens ns ++ [TPunct "}"] ++ rest))
      with (parse_items (PElem []) acc
              (consts_tokens ns ++ TPunct "}" :: rest)).
    apply parse_consts.
  - reflexivity.
Qed.

Lemma parse_more_items (items acc : list item) (rest : list token) :
  parse_items PSep acc
    (flat_map (fun j => TPunct "," :: item_tokens j) items
       ++ TPunct "}" :: rest)
  = Some (acc ++ items, rest).
Proof.
  revert acc; induction items as [|i items IH]; intros acc.
  - simpl. now rewrite app_nil_r.
  - cbn [flat_map]. rewrite <- !app_assoc.
    change (parse_items PSep acc
              ((TPunct "," :: item_tokens i)
                 ++ flat_map (fun j => TPunct "," :: item_tokens j) items
                 ++ TPunct "}" :: rest))
      with (parse_items PItem acc
              (item_tokens i
                 ++ flat_map (fun j => TPunct "," :: item_tokens j) items
                 ++ TPunct "}" :: rest)).
    rewrite parse_item, IH. now rewrite <- app_assoc.
Qed.

(** The parser reads back what the token printer writes. *)
Lemma parse_items_tokens (items : list item) (rest : list token) :
  parse_items PItem [] (items_tokens items ++ TPunct "}" :: rest)
  = Some (items, rest).
Proof.
  destruct items as [|i items].
  - reflexivity.
  - unfold items_tokens. rewrite <- app_assoc, parse_item.
    apply parse_more_items.
Qed.

Lemma find_array_skip (name : string) (pre rest : list token) :
  without_ident name pre ->
  find_array name (pre ++ rest) = find_array name rest.
Proof.
  induction 1 as [|t pre Ht _ IH]; [reflexivity|].
  cbn [app find_array]. now rewrite Ht.
Qed.

Lemma find_array_here (name : string) (rest : list token) :
  find_array name
    ([TIdent name; TPunct "["; TPunct "]"; TPunct "="; TPunct "{"] ++ rest)
  = Some rest.
Proof.
  cbn [app find_array starts_with]. rewrite token_eqb_refl. reflexivity.
Qed.

(** An array definition is found behind any tokens that do not name it, and
    read back whatever follows it. *)
Lemma read_array_tokens (name : string) (pre qualifiers post : list token)
    (items : list item) :
  without_ident name pre ->
  without_ident name qualifiers ->
  read_array name (pre ++ array_tokens qualifiers name items ++ post)
  = Some items.
Proof.
  intros Hpre Hq. unfold read_array, array_tokens.
  rewrite find_array_skip by assumption.
  rewrite <- app_assoc, find_array_skip by assumption.
  rewrite <- !app_assoc, find_array_here.
  change ([TPunct "}"; TPunct ";"] ++ post)
    with (TPunct "}" :: TPunct ";" :: post).
  now rewrite parse_items_tokens.
Qed.

Lemma all_some_map {A B} (f : A -> option B) (g : A -> B) (l : list A) :
  (forall a, In a l -> f a = Some (g a)) ->
  all_some (map f l) = Some (map g l).
Proof.
  induction l as [|a l IH]; intros H; [reflexivity|].
  simpl. rewrite (H a (or_introl eq_refl)), IH; [reflexivity|].
  intros b Hb. apply H. now right.
Qed.

Lemma as_pointer_char_array (arr : list ascii) :
  as_pointer (char_array arr) = Some (Ptr arr).
Proof.
  unfold char_array, as_pointer. rewrite map_map. do 2 f_equal.
  rewrite <- (map_id arr) at 2. apply map_ext. intros c.
  apply ascii_N_embedding.
Qed.

(* ================================================================== *)
(** * What the emitters write *)

Lemma consts_tokens_cons (n m : N) (ns : list N) :
  consts_tokens (n :: m :: ns) = TNum n :: TPunct "," :: consts_tokens (m :: ns).
Proof. reflexivity. Qed.

Lemma consts_tokens_snoc (ns : list N) (z : N) :
  flat_map (fun n => [TNum n; TPunct ","]) ns ++ [TNum z]
  = consts_tokens (ns ++ [z]).
Proof.
  induction ns as [|n ns IH]; [reflexivity|].
  cbn [flat_map app]. rewrite IH.
  destruct ns; reflexivity.
Qed.

Lemma items_tokens_snoc (items : list item) (last : item) :
  flat_map (fun i => item_tokens i ++ [TPunct ","]) items ++ item_tokens last
  = items_tokens (items ++ [last]).
Proof.
  induction items as [|i items IH]; [simpl; now rewrite app_nil_r|].
  cbn [flat_map app]. rewrite <- !app_assoc, IH.
  destruct items as [|j items]; cbn [app items_tokens flat_map];
    now rewrite <- ?app_assoc.
Qed.

Lemma chars_c_array (c : ascii) (s : string) :
  map N_of_ascii (c_array (String c s))
  = N_of_ascii c :: map N_of_ascii (c_array s).
Proof. reflexivity. Qed.

(** The inner loop of [generate_file_list] writes the characters of the name
    and its terminator as constants separated by commas. *)
Lemma name_chars_writes (input_file : string) (count : nat) :
  exists ws,
    appends (name_chars count input_file) ws
    /\ tokens ws
       = (if (count =? 0)%nat then [] else [TPunct ","])
           ++ consts_tokens (map N_of_ascii (c_array input_file)).
Proof.
  revert count; induction input_file as [|c rest IH]; intros count.
  - eexists; split.
    + cbn [name_chars]. eauto 12 with appends.
    + rewrite tokens_app. destruct (count =? 0)%nat; [reflexivity|].
      cbn [negb]. rewrite tokens_app.
      destruct (count mod HEX_COLS =? 0)%nat; reflexivity.
  - destruct (IH (S count)) as [ws [Hws Htok]].
    eexists; split.
    + cbn [name_chars]. eauto 12 with appends.
    + rewrite !tokens_app, Htok, chars_c_array.
      change (tokens [Hex c]) with (tokens_of_write (Hex c) ++ []).
      rewrite tokens_hex.
      destruct (map N_of_ascii (c_array rest)) as [|m ns] eqn:E.
      { destruct rest; discriminate E. }
      rewrite consts_tokens_cons.
      destruct (count =? 0)%nat; [reflexivity|].
      cbn [negb]. rewrite tokens_app.
      destruct (count mod HEX_COLS =? 0)%nat; reflexivity.
Qed.

(** The read loop of [generate_file_data] writes every byte of the file as a
    constant followed by a comma. *)
Lemma data_chars_writes (infd : list ascii) (count : nat) :
  exists ws,
    appends (data_chars count infd) ws
    /\ tokens ws
       = flat_map (fun n => [TNum n; TPunct ","]) (map N_of_ascii infd).
Proof.
  revert count; induction infd as [|c rest IH]; intros count.
  - exists []. split; [apply appends_ret | reflexivity].
  - destruct (IH (S count)) as [ws [Hws Htok]].
    eexists; split.
    + cbn [data_chars]. eauto 12 with appends.
    + rewrite !tokens_app, Htok.
      change (tokens [Hex c]) with (tokens_of_write (Hex c) ++ []).
      rewrite tokens_hex.
      destruct ((count + 1) mod HEX_COLS =? 0)%nat; reflexivity.
Qed.

Lemma tokens_open_compound :
  tokens [Text (TAB ++ "(char[]){" ++ LF ++ TAB ++ TAB)] = compound_open.
Proof. reflexivity. Qed.

(** The elements [generate_file_list] writes before the sentinel. *)
Lemma file_list_loop_writes (preserve : bool) (l : list string) :
  exists ws,
    appends (file_list_loop preserve l) ws
    /\ tokens ws
       = flat_map (fun i => item_tokens i ++ [TPunct ","])
           (map (fun p => char_array (c_array (display_name preserve p))) l).
Proof.
  induction l as [|path l [ws [Hws Htok]]].
  - exists []. split; [apply appends_ret | reflexivity].
  - destruct (name_chars_writes (display_name preserve path) 0)
      as [wn [Hwn Htn]].
    eexists; split.
    + cbn [file_list_loop].
      replace (if negb preserve then plain_name path else path)
        with (display_name preserve path) by (now destruct preserve).
      eauto 12 with appends.
    + rewrite !tokens_app, Htok, Htn, tokens_open_compound.
      cbn [map flat_map item_tokens char_array].
      rewrite <- !app_assoc. reflexivity.
Qed.

Lemma generate_file_list_writes (preserve : bool) (l : list string) :
  exists ws,
    appends (generate_file_list (Some l) preserve) ws
    /\ tokens ws
       = array_tokens pointer_qualifiers "EMBEDDED_FILE_NAMES"
           (map (fun p => char_array (c_array (display_name preserve p))) l
              ++ [char_array [NUL]]).
Proof.
  destruct (file_list_loop_writes preserve l) as [ws [Hws Htok]].
  eexists; split.
  - unfold generate_file_list. eauto 12 with appends.
  - rewrite !tokens_app, Htok. unfold array_tokens.
    rewrite <- items_tokens_snoc, <- !app_assoc. reflexivity.
Qed.

Ltac flatten_app :=
  repeat (rewrite <- app_comm_cons || rewrite <- app_assoc); cbn [app].

(** The tokens of the elements a loop writes when it is entered with
    [file_count]: from the second element on, a comma comes first. *)
Lemma items_tokens_cons (i : item) (items : list item) :
  items_tokens (i :: items)
  = item_tokens i ++ flat_map (fun j => TPunct "," :: item_tokens j) items.
Proof. reflexivity. Qed.

(** One turn of the size loop on a file that opens: [fseek] moves the
    stream to its end and [ftell] gives the size of the file. *)
Lemma file_data_sizes_loop_open (fs : filesystem) (file_count : nat)
    (path : string) (l : list string) (content : list ascii) :
  fs path = Some content ->
  file_data_sizes_loop fs file_count (path :: l)
  = (when (negb (file_count =? 0)%nat) (fprintf ("," ++ LF)) ;;
     put (Comment path) ;;
     put (Zu (N.of_nat (List.length content))) ;;
     file_data_sizes_loop fs (S file_count) l).
Proof.
  intros Hpath. cbn [file_data_sizes_loop]. unfold fopen_r. rewrite Hpath.
  reflexivity.
Qed.

(** One turn of the data loop on a file that opens. *)
Lemma file_data_loop_open (fs : filesystem) (file_count : nat)
    (path : string) (l : list string) (content : list ascii) :
  fs path = Some content ->
  file_data_loop fs file_count (path :: l)
  = (when (negb (file_count =? 0)%nat) (fprintf ("," ++ LF)) ;;
     put (Comment path) ;;
     fprintf (TAB ++ "(char[]){" ++ LF ++ TAB ++ TAB) ;;
     data_chars 0 content ;;
     output_hex NUL ;;
     fprintf (LF ++ TAB ++ "}") ;;
     file_data_loop fs (S file_count) l).
Proof.
  intros Hpath. cbn [file_data_loop]. unfold fopen_r. rewrite Hpath.
  reflexivity.
Qed.

Lemma file_data_loop_writes (fs : filesystem) (l : list string)
    (contents : list (list ascii)) (file_count : nat) :
  read_all fs l = Some contents ->
  exists ws,
    appends (file_data_loop fs file_count l) ws
    /\ tokens ws
       = let items := map (fun c => char_array (c ++ [NUL])) contents in
         if (file_count =? 0)%nat then items_tokens items
         else flat_map (fun j => TPunct "," :: item_tokens j) items.
Proof.
  revert contents file_count; induction l as [|path l IH];
    intros contents file_count Hread.
  - injection Hread as <-. exists []. split; [apply appends_ret|].
    now destruct (file_count =? 0)%nat.
  - cbn [read_all] in Hread.
    destruct (fs path) as [content|] eqn:Hpath; [|discriminate].
    destruct (read_all fs l) as [rest|] eqn:Hrest; [|discriminate].
    injection Hread as <-.
    destruct (IH rest (S file_count) eq_refl) as [ws [Hws Htok]].
    destruct (data_chars_writes content 0) as [wd [Hwd Htd]].
    eexists; split.
    + rewrite (file_data_loop_open fs file_count path l content Hpath).
      eauto 12 with appends.
    + rewrite !tokens_app, Htok, Htd, tokens_open_compound.
      change (tokens [Hex NUL]) with (tokens_of_write (Hex NUL) ++ []).
      rewrite tokens_hex. cbn zeta. cbn [map Nat.eqb].
      change (tokens [Comment path]) with (@nil token).
      change (tokens [Text (LF ++ TAB ++ "}")]) with [TPunct "}"].
      assert (Hitem :
        item_tokens (char_array (content ++ [NUL]))
        = compound_open
            ++ flat_map (fun n => [TNum n; TPunct ","]) (map N_of_ascii content)
            ++ [TNum (N_of_ascii NUL)] ++ [TPunct "}"]).
      { unfold item_tokens, char_array. rewrite map_app.
        change (map N_of_ascii [NUL]) with [N_of_ascii NUL].
        rewrite <- consts_tokens_snoc, <- !app_assoc. reflexivity. }
      destruct (file_count =? 0)%nat; cbn [negb].
      * rewrite items_tokens_cons, Hitem. now flatten_app.
      * cbn [flat_map]. rewrite Hitem.
        change (tokens [Text ("," ++ LF)]) with [TPunct ","].
        now flatten_app.
Qed.

Lemma generate_file_data_writes (fs : filesystem) (l : list string)
    (contents : list (list ascii)) :
  read_all fs l = Some contents ->
  exists ws,
    appends (generate_file_data fs (Some l)) ws
    /\ tokens ws
       = array_tokens pointer_qualifiers "EMBEDDED_FILE_DATA"
           (map (fun c => char_array (c ++ [NUL])) contents).
Proof.
  intros Hread.
  destruct (file_data_loop_writes fs l contents 0 Hread) as [ws [Hws Htok]].
  eexists; split.
  - unfold generate_file_data. eauto 12 with appends.
  - rewrite !tokens_app, Htok. unfold array_tokens. now flatten_app.
Qed.

Lemma file_data_sizes_loop_writes (fs : filesystem) (l : list string)
    (contents : list (list ascii)) (file_count : nat) :
  read_all fs l = Some contents ->
  exists ws,
    appends (file_data_sizes_loop fs file_count l) ws
    /\ tokens ws
       = let items :=
           map (fun c => Const (N.of_nat (List.length c))) contents in
         if (file_count =? 0)%nat then items_tokens items
         else flat_map (fun j => TPunct "," :: item_tokens j) items.
Proof.
  revert contents file_count; induction l as [|path l IH];
    intros contents file_count Hread.
  - injection Hread as <-. exists []. split; [apply appends_ret|].
    now destruct (file_count =? 0)%nat.
  - cbn [read_all] in Hread.
    destruct (fs path) as [content|] eqn:Hpath; [|discriminate].
    destruct (read_all fs l) as [rest|] eqn:Hrest; [|discriminate].
    injection Hread as <-.
    destruct (IH rest (S file_count) eq_refl) as [ws [Hws Htok]].
    exists ((if negb (file_count =? 0)%nat then [Text ("," ++ LF)] else [])
              ++ [Comment path] ++ [Zu (N.of_nat (List.length content))] ++ ws).
    split.
    + rewrite (file_data_sizes_loop_open fs file_count path l content Hpath).
      eauto 12 with appends.
    + rewrite !tokens_app, Htok.
      change (tokens [Zu (N.of_nat (List.length content))])
        with (tokens_of_write (Zu (N.of_nat (List.length content))) ++ []).
      rewrite tokens_zu. cbn zeta. cbn [map Nat.eqb].
      destruct (file_count =? 0)%nat; reflexivity.
Qed.

Lemma generate_file_data_sizes_writes (fs : filesystem) (l : list string)
    (contents : list (list ascii)) :
  read_all fs l = Some contents ->
  exists ws,
    appends (generate_file_data_sizes fs (Some l)) ws
    /\ tokens ws
       = array_tokens size_qualifiers "EMBEDDED_FILE_DATA_SIZES"
           (map (fun c => Const (N.of_nat (List.length c))) contents).
Proof.
  intros Hread.
  destruct (file_data_sizes_loop_writes fs l contents 0 Hread)
    as [ws [Hws Htok]].
  eexists; split.
  - unfold generate_file_data_sizes. eauto 12 with appends.
  - rewrite !tokens_app, Htok. unfold array_tokens. now flatten_app.
Qed.

(* ================================================================== *)
(** * An input file that does not open *)

(** The first path of [l] that does not open, with the contents of the files
    before it. *)
Lemma read_all_none (fs : filesystem) (l : list string) :
  read_all fs l = None ->
  exists pre path rest contents,
    l = pre ++ path :: rest
    /\ read_all fs pre = Some contents
    /\ fs path = None.
Proof.
  induction l as [|p l IH]; [discriminate|].
  cbn [read_all]. destruct (fs p) as [content|] eqn:Hp.
  - destruct (read_all fs l) as [cs|] eqn:Hl; [discriminate|].
    intros _. destruct (IH eq_refl) as (pre & path & rest & contents & -> & Hpre & Hpath).
    exists (p :: pre), path, rest, (content :: contents).
    split; [reflexivity|]. split; [|assumption].
    cbn [read_all]. now rewrite Hp, Hpre.
  - intros _. exists [], p, l, []. repeat split; assumption.
Qed.

Lemma read_all_nth (fs : filesystem) (l : list string)
    (contents : list (list ascii)) :
  read_all fs l = Some contents ->
  List.length contents = List.length l
  /\ forall i path,
       nth_error l i = Some path ->
       exists content,
         fs path = Some content /\ nth_error contents i = Some content.
Proof.
  revert contents; induction l as [|p l IH]; intros contents.
  - intros H. injection H as <-. split; [reflexivity|].
    intros [|i] path; discriminate.
  - cbn [read_all]. destruct (fs p) as [c|] eqn:Hp; [|discriminate].
    destruct (read_all fs l) as [cs|]; [|discriminate].
    intros H. injection H as <-.
    destruct (IH cs eq_refl) as [Hlen Hnth].
    split; [simpl; now rewrite Hlen|].
    intros [|i] path Hi; simpl in Hi.
    + injection Hi as <-. exists c. now split.
    + apply Hnth, Hi.
Qed.

(** The data pass stops at the first path that does not open: it names the
    path on the diagnostic stream and exits with status 1. *)
Lemma file_data_loop_stops (fs : filesystem) (pre rest : list string)
    (path : string) (contents : list (list ascii)) (file_count : nat)
    (o : out) :
  read_all fs pre = Some contents ->
  fs path = None ->
  exists ws,
    file_data_loop fs file_count (pre ++ path :: rest) o
    = Exit 1 (mkOut (fd o ++ ws)
                (err o ++ [("Could not open file: '" ++ path ++ "'" ++ LF)%string])).
Proof.
  intros Hpre Hpath. revert contents file_count o Hpre.
  induction pre as [|p pre IH]; intros contents file_count o Hpre.
  - exists []. cbn [app file_data_loop]. unfold fopen_r. rewrite Hpath.
    unfold bind, eprintf, exit. simpl. now rewrite app_nil_r.
  - cbn [read_all] in Hpre.
    destruct (fs p) as [content|] eqn:Hp; [|discriminate].
    destruct (read_all fs pre) as [cs|] eqn:Hcs; [|discriminate].
    destruct (data_chars_writes content 0) as [wd [Hwd _]].
    cbn [app]. rewrite (file_data_loop_open fs file_count p _ content Hp).
    repeat (erewrite bind_appends by eauto 12 with appends).
    destruct (IH cs (S file_count)
                (mkOut
                   ((((((fd o
                           ++ (if negb (file_count =? 0)%nat
                               then [Text ("," ++ LF)] else []))
                          ++ [Comment p])
                         ++ [Text (TAB ++ "(char[]){" ++ LF ++ TAB ++ TAB)])
                        ++ wd) ++ [Hex NUL]) ++ [Text (LF ++ TAB ++ "}")])
                   (err o)) eq_refl) as [ws Hws].
    cbn [fd err] in *. rewrite Hws.
    eexists. rewrite <- !app_assoc. reflexivity.
Qed.

(** The size pass hands the null stream to [fseek] before it looks at it:
    nothing is printed, and the behaviour is undefined from there. *)
Lemma file_data_sizes_loop_undefined (fs : filesystem)
    (pre rest : list string) (path : string) (contents : list (list ascii))
    (file_count : nat) (o : out) :
  read_all fs pre = Some contents ->
  fs path = None ->
  exists ws,
    file_data_sizes_loop fs file_count (pre ++ path :: rest) o
    = Undefined (mkOut (fd o ++ ws) (err o)).
Proof.
  intros Hpre Hpath.
  revert contents file_count o Hpre.
  induction pre as [|p pre IH]; intros contents file_count o Hpre.
  - exists []. cbn [app file_data_sizes_loop]. unfold fopen_r. rewrite Hpath.
    destruct o as [f e]. simpl. now rewrite app_nil_r.
  - cbn [read_all] in Hpre.
    destruct (fs p) as [content|] eqn:Hp; [|discriminate].
    destruct (read_all fs pre) as [cs|] eqn:Hcs; [|discriminate].
    cbn [app]. rewrite (file_data_sizes_loop_open fs file_count p _ content Hp).
    repeat (erewrite bind_appends by eauto 12 with appends).
    edestruct (IH cs (S file_count)) as [ws Hws]; [reflexivity|].
    rewrite Hws. cbn [fd err].
    eexists. rewrite <- !app_assoc. reflexivity.
Qed.

(* ================================================================== *)
(** * The argument loop *)

(** Induction for a loop that consumes one or two elements a turn. *)
Lemma list_ind_two {A} (P : list A -> Prop) :
  P [] ->
  (forall a l, P l -> (forall b l', l = b :: l' -> P l') -> P (a :: l)) ->
  forall l, P l.
Proof.
  intros Hnil Hstep l.
  enough (H : P l /\ (forall b l', l = b :: l' -> P l')) by apply H.
  induction l as [|a l [IH1 IH2]].
  - split; [assumption | discriminate].
  - split; [now apply Hstep|]. intros b l' H. now injection H as <- <-.
Qed.

Lemma print_help_run {A} (exec_name : string) (k : W A) (o : out) :
  (print_help exec_name ;; k) o
  = k (mkOut (fd o) ((err o ++ [help_intro]) ++ [help_usage exec_name])).
Proof. reflexivity. Qed.

Lemma eprintf_run {A} (s : string) (k : W A) (o : out) :
  (eprintf s ;; k) o = k (mkOut (fd o) (err o ++ [s])).
Proof. reflexivity. Qed.

(** The loop never leaves defined behaviour, fails with [EXIT_FAILURE] only,
    and prints only when it fails. *)
Lemma parse_args_outcome (exec_name : string) (args : list string) :
  forall cfg o,
    parse_outcome o (parse_args exec_name args cfg o).
Proof.
  induction args as [|a rest IH1 IH2] using list_ind_two; intros cfg o.
  - apply ParseOk.
  - cbn [parse_args]. destruct (is_long_option a).
    + destruct (input_files cfg).
      * rewrite eprintf_run, print_help_run. unfold exit. cbn [fd err].
        rewrite <- !app_assoc. apply ParseFail.
      * destruct (String.eqb (option_name a) "source").
        { destruct rest as [|v rest']; [apply ParseOk | now eapply IH2]. }
        destruct (String.eqb (option_name a) "header").
        { destruct rest as [|v rest']; [apply ParseOk | now eapply IH2]. }
        destruct (String.eqb (option_name a) "function").
        { destruct rest as [|v rest']; [apply ParseOk | now eapply IH2]. }
        destruct (String.eqb (option_name a) "help").
        { rewrite print_help_run. unfold exit. cbn [fd err].
          rewrite <- !app_assoc. apply ParseFail. }
        destruct (String.eqb (option_name a) "preserve-paths").
        { apply IH1. }
        rewrite eprintf_run, print_help_run. unfold exit. cbn [fd err].
        rewrite <- !app_assoc. apply ParseFail.
    + apply ParseOk.
Qed.

Lemma is_long_option_name (a name : string) :
  is_long_option a = true -> option_name a = name -> a = ("--" ++ name)%string.
Proof.
  destruct a as [|c0 [|c1 a]]; try discriminate. simpl.
  intros H <-. apply andb_prop in H as [H0 H1].
  apply Ascii.eqb_eq in H0, H1. now subst.
Qed.

(** Only the argument [--function] sets the function name, only [--source]
    the source path. *)
Lemma parse_args_keeps (exec_name : string) (args : list string) :
  forall cfg o cfg' o',
    parse_args exec_name args cfg o = Ok cfg' o' ->
    (~ In "--function" args -> function_name cfg' = function_name cfg)
    /\ (~ In "--source" args -> source_file cfg' = source_file cfg).
Proof.
  induction args as [|a rest IH1 IH2] using list_ind_two;
    intros cfg o cfg' o'.
  - intros H. injection H as <- <-. now split.
  - cbn [parse_args]. destruct (is_long_option a) eqn:Hopt.
    + destruct (input_files cfg); [discriminate|].
      destruct (String.eqb (option_name a) "source") eqn:E1.
      { apply String.eqb_eq in E1.
        apply (is_long_option_name a "source" Hopt) in E1. subst a.
        destruct rest as [|v rest'].
        - intros H. injection H as <- <-. split; [reflexivity|].
          intros Hn. exfalso. apply Hn. now left.
        - intros H. destruct (IH2 v rest' eq_refl _ _ _ _ H) as [Hf Hs].
          split.
          + intros Hn. rewrite Hf; [reflexivity|].
            intros Hin. apply Hn. right. now right.
          + intros Hn. exfalso. apply Hn. now left. }
      destruct (String.eqb (option_name a) "header") eqn:E2.
      { destruct rest as [|v rest'].
        - intros H. injection H as <- <-. now split.
        - intros H. destruct (IH2 v rest' eq_refl _ _ _ _ H) as [Hf Hs].
          split; intros Hn; [rewrite Hf | rewrite Hs]; try reflexivity;
            intros Hin; apply Hn; right; now right. }
      destruct (String.eqb (option_name a) "function") eqn:E3.
      { apply String.eqb_eq in E3.
        apply (is_long_option_name a "function" Hopt) in E3. subst a.
        destruct rest as [|v rest'].
        - intros H. injection H as <- <-. split; [|reflexivity].
          intros Hn. exfalso. apply Hn. now left.
        - intros H. destruct (IH2 v rest' eq_refl _ _ _ _ H) as [Hf Hs].
          split.
          + intros Hn. exfalso. apply Hn. now left.
          + intros Hn. rewrite Hs; [reflexivity|].
            intros Hin. apply Hn. right. now right. }
      destruct (String.eqb (option_name a) "help"); [discriminate|].
      destruct (String.eqb (option_name a) "preserve-paths"); [|discriminate].
      intros H. destruct (IH1 _ _ _ _ H) as [Hf Hs].
      split; intros Hn; [rewrite Hf | rewrite Hs]; try reflexivity;
        intros Hin; apply Hn; now right.
    + intros H. injection H as <- <-.
      destruct (input_files cfg); now split.
Qed.

(* ================================================================== *)
(** * Runs that the configuration checks stop *)

(** A run whose configuration lacks the source path or the function name
    stops with [EXIT_FAILURE] before any [fopen]. *)
Lemma main_unconfigured (w : world) (exec_name : string) (args : list string)
    (cfg : config) (o : out) :
  parse_args exec_name args no_config (mkOut [] []) = Ok cfg o ->
  source_file cfg = None \/ function_name cfg = None ->
  status (main w exec_name args) = Some EXIT_FAILURE
  /\ opened (main w exec_name args) = []
  /\ source_out (main w exec_name args) = []
  /\ header_out (main w exec_name args) = [].
Proof.
  intros Hparse Hnone. unfold main, bind. rewrite Hparse.
  unfold check_config.
  destruct (source_file cfg) as [source|].
  - destruct Hnone as [Hnone|Hnone]; [discriminate|]. rewrite Hnone.
    destruct (header_file cfg); repeat split; reflexivity.
  - repeat split; reflexivity.
Qed.

(** C9: an invocation without [--function], or without [--source], exits
    with a failure status and has opened no output path by then: no output
    file is created, truncated or written. *)
Theorem missing_function_or_source_fails
    (w : world) (exec_name : string) (args : list string)
    (Hmissing : ~ In "--function" args \/ ~ In "--source" args) :
  status (main w exec_name args) = Some EXIT_FAILURE
  /\ opened (main w exec_name args) = []
  /\ source_out (main w exec_name args) = []
  /\ header_out (main w exec_name args) = [].
Proof.
  pose proof (parse_args_outcome exec_name args no_config (mkOut [] [])) as Hout.
  inversion Hout as [cfg Hparse | msgs Hparse].
  - symmetry in Hparse.
    destruct (parse_args_keeps exec_name args _ _ _ _ Hparse) as [Hf Hs].
    apply (main_unconfigured w exec_name args cfg _ Hparse).
    destruct Hmissing as [H|H]; [right; now apply Hf | left; now apply Hs].
  - unfold main, bind. rewrite <- Hparse. repeat split; reflexivity.
Qed.

Lemma missing_function_or_source_fails_witness :
  let w := mkWorld (fun _ => None) (fun _ => true) true in
  let args := ["--source"; "out.c"; "--header"; "out.h"; "a.txt"] in
  (~ In "--function" args \/ ~ In "--source" args)
  /\ status (main w "embed" args) = Some EXIT_FAILURE
  /\ opened (main w "embed" args) = []
  /\ source_out (main w "embed" args) = []
  /\ header_out (main w "embed" args) = [].
Proof.
  assert (H : ~ In "--function"
                  ["--source"; "out.c"; "--header"; "out.h"; "a.txt"]).
  { simpl. intros [H|[H|[H|[H|[H|[]]]]]]; discriminate H. }
  split; [left; exact H|].
  apply (missing_function_or_source_fails
           (mkWorld (fun _ => None) (fun _ => true) true) "embed"
           ["--source"; "out.c"; "--header"; "out.h"; "a.txt"]).
  left; exact H.
Defined.

(* ================================================================== *)
(** * Reading the three tables of a generated source file *)

Lemma without_ident_app (name : string) (a b : list token) :
  without_ident name a -> without_ident name b -> without_ident name (a ++ b).
Proof. intros Ha Hb. apply Forall_app. now split. Qed.

Lemma without_ident_flat_map {A} (name : string) (f : A -> list token)
    (l : list A) :
  (forall a, without_ident name (f a)) -> without_ident name (flat_map f l).
Proof.
  intros H. induction l as [|a l IH]; [constructor|].
  cbn [flat_map]. now apply without_ident_app.
Qed.

Lemma without_ident_consts (name : string) (ns : list N) :
  without_ident name (consts_tokens ns).
Proof.
  destruct ns as [|n ns]; [constructor|].
  constructor; [reflexivity|].
  apply without_ident_flat_map. intros m. repeat constructor.
Qed.

Lemma without_ident_item (name : string) (i : item) :
  String.eqb "char" name = false -> without_ident name (item_tokens i).
Proof.
  intros Hname. destruct i as [ns|n]; [|repeat constructor].
  unfold item_tokens. apply without_ident_app.
  - repeat constructor. exact Hname.
  - apply without_ident_app; [apply without_ident_consts|].
    repeat constructor.
Qed.

Lemma without_ident_items (name : string) (items : list item) :
  String.eqb "char" name = false -> without_ident name (items_tokens items).
Proof.
  intros Hname. destruct items as [|i items]; [constructor|].
  unfold items_tokens. apply without_ident_app.
  - now apply without_ident_item.
  - apply without_ident_flat_map. intros j.
    constructor; [reflexivity | now apply without_ident_item].
Qed.

Lemma without_ident_array (name name' : string) (qualifiers : list token)
    (items : list item) :
  String.eqb "char" name = false ->
  String.eqb name' name = false ->
  without_ident name qualifiers ->
  without_ident name (array_tokens qualifiers name' items).
Proof.
  intros Hchar Hname Hq. unfold array_tokens.
  apply without_ident_app; [assumption|].
  apply without_ident_app; [repeat constructor; exact Hname|].
  apply without_ident_app; [now apply without_ident_items|].
  repeat constructor.
Qed.

Ltac closed_without_ident := repeat constructor.

(** The three definitions, one after the other, behind tokens that name none
    of them, are read back as the three tables. *)
Lemma read_tables_arrays (pre post : list token) (n d s : list item)
    (names data : list cptr) (sizes : list N) :
  without_ident "EMBEDDED_FILE_NAMES" pre ->
  without_ident "EMBEDDED_FILE_DATA" pre ->
  without_ident "EMBEDDED_FILE_DATA_SIZES" pre ->
  all_some (map as_pointer n) = Some names ->
  all_some (map as_pointer d) = Some data ->
  all_some (map as_size s) = Some sizes ->
  read_tables
    (pre ++ array_tokens pointer_qualifiers "EMBEDDED_FILE_NAMES" n
         ++ array_tokens pointer_qualifiers "EMBEDDED_FILE_DATA" d
         ++ array_tokens size_qualifiers "EMBEDDED_FILE_DATA_SIZES" s
         ++ post)
  = Some (mkTables names data sizes).
Proof.
  intros Hn Hd Hs Hnames Hdata Hsizes.
  unfold read_tables, read_pointers, read_sizes.
  rewrite read_array_tokens by (assumption || closed_without_ident).
  rewrite Hnames.
  rewrite (app_assoc pre).
  rewrite read_array_tokens; cycle 1.
  { apply without_ident_app; [assumption|].
    apply without_ident_array; [reflexivity | reflexivity |].
    closed_without_ident. }
  { closed_without_ident. }
  rewrite Hdata.
  rewrite (app_assoc (pre ++ _)).
  rewrite read_array_tokens; cycle 1.
  { apply without_ident_app.
    - apply without_ident_app; [assumption|].
      apply without_ident_array; [reflexivity | reflexivity |].
      closed_without_ident.
    - apply without_ident_array; [reflexivity | reflexivity |].
      closed_without_ident. }
  { closed_without_ident. }
  now rewrite Hsizes.
Qed.

Lemma all_some_app {A} (a b : list (option A)) (xs ys : list A) :
  all_some a = Some xs -> all_some b = Some ys ->
  all_some (a ++ b) = Some (xs ++ ys).
Proof.
  revert xs; induction a as [|[x|] a IH]; intros xs; simpl.
  - intros H. now injection H as <-.
  - destruct (all_some a) as [xs'|]; [|discriminate].
    intros H Hb. injection H as <-. now rewrite (IH xs' eq_refl Hb).
  - discriminate.
Qed.

(** All of [main]'s writes on the source stream, when every input opens. *)
Lemma emit_source_writes (fs : filesystem) (cfg : config) (name : string)
    (l : list string) (contents : list (list ascii)) :
  input_files cfg = Some l ->
  read_all fs l = Some contents ->
  exists ws,
    appends (emit_source fs cfg name) ws
    /\ read_tables (tokens ws)
       = Some (tables_of (preserve_paths cfg) l contents).
Proof.
  intros Hl Hread.
  destruct (generate_file_list_writes (preserve_paths cfg) l) as [w1 [H1 T1]].
  destruct (generate_file_data_writes fs l contents Hread) as [w2 [H2 T2]].
  destruct (generate_file_data_sizes_writes fs l contents Hread)
    as [w3 [H3 T3]].
  eexists; split.
  - unfold emit_source. rewrite Hl. unfold generate_function.
    eauto 12 with appends.
  - rewrite !tokens_app, T1, T2, T3. rewrite <- ?app_assoc.
    apply read_tables_arrays; try closed_without_ident.
    + rewrite map_app. apply all_some_app.
      * rewrite map_map. apply all_some_map. intros p _.
        apply as_pointer_char_array.
      * reflexivity.
    + rewrite map_map. apply all_some_map. intros c _.
      apply as_pointer_char_array.
    + rewrite map_map. now apply all_some_map.
Qed.

(* ================================================================== *)
(** * Runs that reach the emitters *)

(** Without input files, the first emitter reads through a null pointer. *)
Lemma emit_source_null_files (fs : filesystem) (cfg : config) (name : string)
    (o : out) :
  input_files cfg = None ->
  exists o', emit_source fs cfg name o = Undefined o'.
Proof.
  intros Hnone. unfold emit_source. rewrite Hnone.
  eexists. reflexivity.
Qed.

(** With an input file that does not open, the data pass ends the run. *)
Lemma emit_source_missing_file (fs : filesystem) (cfg : config)
    (name : string) (l : list string) (o : out) :
  input_files cfg = Some l ->
  read_all fs l = None ->
  exists o', emit_source fs cfg name o = Exit 1 o'.
Proof.
  intros Hl Hread.
  destruct (read_all_none fs l Hread)
    as (pre & path & rest & contents & -> & Hpre & Hpath).
  destruct (generate_file_list_writes (preserve_paths cfg)
              (pre ++ path :: rest)) as [w1 [H1 _]].
  unfold emit_source. rewrite Hl.
  rewrite (bind_appends _ _ _ _ (appends_fprintf _)).
  rewrite (bind_appends _ _ _ _ H1).
  unfold generate_file_data.
  unfold bind at 1. unfold bind at 1.
  rewrite (appends_fprintf _ _).
  unfold bind at 1.
  match goal with
  | |- context [file_data_loop fs 0 _ ?o1] =>
      destruct (file_data_loop_stops fs pre rest path contents 0 o1 Hpre Hpath)
        as [ws Hws]; rewrite Hws
  end.
  eexists. reflexivity.
Qed.

(** The diagnostic stream after the configuration checks have passed. *)
Lemma check_config_ok (exec_name : string) (cfg : config)
    (source name : string) (o : out) :
  source_file cfg = Some source ->
  function_name cfg = Some name ->
  exists notice,
    check_config exec_name cfg o
    = Ok (source, name) (mkOut (fd o) (err o ++ notice)).
Proof.
  intros Hs Hf. unfold check_config. rewrite Hs, Hf.
  destruct (header_file cfg).
  - exists []. destruct o as [f e]. unfold bind, when, ret. cbn [fd err].
    now rewrite app_nil_r.
  - eexists. reflexivity.
Qed.

(** What is known of a run that ends with [EXIT_SUCCESS]. *)
Lemma main_success (w : world) (exec_name : string) (args : list string) :
  status (main w exec_name args) = Some EXIT_SUCCESS ->
  exists cfg source name header l contents,
    parse_args exec_name args no_config (mkOut [] []) = Ok cfg (mkOut [] [])
    /\ source_file cfg = Some source
    /\ function_name cfg = Some name
    /\ header_file cfg = Some header
    /\ input_files cfg = Some l
    /\ read_all (files w) l = Some contents
    /\ opened (main w exec_name args) = [source; header]
    /\ read_tables (tokens (source_out (main w exec_name args)))
       = Some (tables_of (preserve_paths cfg) l contents)
    /\ appends (emit_source (files w) cfg name)
         (source_out (main w exec_name args)).
Proof.
  pose proof (parse_args_outcome exec_name args no_config (mkOut [] [])) as Hout.
  inversion Hout as [cfg Hparse | msgs Hparse].
  2:{ unfold main, bind. rewrite <- Hparse. discriminate. }
  symmetry in Hparse.
  destruct (source_file cfg) as [source|] eqn:Hsource.
  2:{ intros Hok.
      destruct (main_unconfigured w exec_name args cfg _ Hparse
                  (or_introl Hsource)) as [Hst _].
      rewrite Hst in Hok. discriminate Hok. }
  destruct (function_name cfg) as [name|] eqn:Hname.
  2:{ intros Hok.
      destruct (main_unconfigured w exec_name args cfg _ Hparse
                  (or_intror Hname)) as [Hst _].
      rewrite Hst in Hok. discriminate Hok. }
  unfold main, bind. rewrite Hparse.
  destruct (check_config_ok exec_name cfg source name (mkOut [] [])
              Hsource Hname) as [notice Hcheck].
  rewrite Hcheck. unfold ret. cbv beta iota. cbn [fd err].
  destruct (negb (writable w source)); [discriminate|].
  destruct (header_file cfg) as [header|] eqn:Hheader.
  2:{ destruct (null_tolerant w); discriminate. }
  destruct (negb (writable w header)); [discriminate|].
  destruct (input_files cfg) as [l|] eqn:Hl.
  2:{ destruct (emit_source_null_files (files w) cfg name
                  (mkOut [] ([] ++ notice)) Hl) as [o' Ho'].
      rewrite Ho'. discriminate. }
  destruct (read_all (files w) l) as [contents|] eqn:Hread.
  2:{ destruct (emit_source_missing_file (files w) cfg name l
                  (mkOut [] ([] ++ notice)) Hl Hread) as [o' Ho'].
      rewrite Ho'. discriminate. }
  destruct (emit_source_writes (files w) cfg name l contents Hl Hread)
    as [ws [Hws Htables]].
  cbn [fd err app]. rewrite !Hws. cbn [fd err app].
  intros _. exists cfg, source, name, header, l, contents.
  repeat split; try assumption; try reflexivity.
Qed.

(* ================================================================== *)
(** * The tables of a successful run *)



(* ================================================================== *)
(** * Display names *)

(** The loop of [plain_name] over [rest]: without a separator in [rest] the
    pointer is unchanged; otherwise it ends just behind the last one. *)
Lemma plain_name_loop_spec (rest no_path : string) :
  (~ In PATH_SEPARATOR (chars rest) -> plain_name_loop no_path rest = no_path)
  /\ (In PATH_SEPARATOR (chars rest) ->
      exists dir,
        rest = (dir ++ "/" ++ plain_name_loop no_path rest)%string
        /\ ~ In PATH_SEPARATOR (chars (plain_name_loop no_path rest))).
Proof.
  revert no_path; induction rest as [|c rest IH]; intros no_path.
  - split; [reflexivity | intros []].
  - cbn [plain_name_loop]. destruct (Ascii.eqb c PATH_SEPARATOR) eqn:Hc.
    + apply Ascii.eqb_eq in Hc. subst c. split.
      * intros Hn. exfalso. apply Hn. now left.
      * intros _. destruct (IH rest) as [Hno Hyes].
        destruct (in_dec ascii_dec PATH_SEPARATOR (chars rest)) as [Hin|Hin].
        -- destruct (Hyes Hin) as [dir [Hdir Hfree]].
           exists (String PATH_SEPARATOR dir). split; [|assumption].
           cbn [append]. f_equal. exact Hdir.
        -- rewrite (Hno Hin). exists EmptyString. split; [reflexivity|assumption].
    + apply Ascii.eqb_neq in Hc. destruct (IH no_path) as [Hno Hyes]. split.
      * intros Hn. apply Hno. intros Hin. apply Hn. now right.
      * intros [Heq|Hin]; [congruence|].
        destruct (Hyes Hin) as [dir [Hdir Hfree]].
        exists (String c dir). split; [|assumption].
        cbn [append]. f_equal. exact Hdir.
Qed.

(** [plain_name] keeps the last segment of a path: what it strips is empty
    or ends with a separator, and what it keeps holds no separator. *)
Lemma plain_name_spec (path : string) :
  exists dir,
    path = (dir ++ plain_name path)%string
    /\ ~ In PATH_SEPARATOR (chars (plain_name path))
    /\ (dir = EmptyString \/ exists d, dir = (d ++ "/")%string).
Proof.
  unfold plain_name. destruct (plain_name_loop_spec path path) as [Hno Hyes].
  destruct (in_dec ascii_dec PATH_SEPARATOR (chars path)) as [Hin|Hin].
  - destruct (Hyes Hin) as [dir [Hdir Hfree]].
    exists (dir ++ "/")%string. split; [|split; [assumption|]].
    + rewrite Hdir at 1.
      clear. induction dir as [|c dir IH]; [reflexivity|].
      cbn [append]. f_equal. exact IH.
    + right. now exists dir.
  - rewrite (Hno Hin). exists EmptyString.
    split; [reflexivity|]. split; [assumption | now left].
Qed.


(* ================================================================== *)
(** * Payloads and sizes *)



(* ================================================================== *)
(** * The size pass and a file that does not open *)

(** C5, against the code: when an input file does not open, the size pass
    does not stop with a diagnostic as the data pass does; it calls [fseek]
    and [ftell] on the null stream first, so its behaviour is undefined and
    nothing has been printed about the file.  (Here [pre] are the paths that
    open, [path] the first one that does not.) *)
Theorem size_pass_uses_null_stream
    (fs : filesystem) (pre rest : list string) (path : string)
    (contents : list (list ascii)) (o : out)
    (Hpre : read_all fs pre = Some contents)
    (Hpath : fs path = None) :
  (exists o',
     generate_file_data_sizes fs (Some (pre ++ path :: rest)) o = Undefined o'
     /\ err o' = err o)
  /\ (exists o',
        generate_file_data fs (Some (pre ++ path :: rest)) o = Exit 1 o'
        /\ err o'
           = err o ++ [("Could not open file: '" ++ path ++ "'" ++ LF)%string]).
Proof.
  split.
  - unfold generate_file_data_sizes.
    rewrite (bind_appends _ _ _ _ (appends_fprintf _)).
    unfold bind at 1.
    match goal with
    | |- context [file_data_sizes_loop fs 0 _ ?o1] =>
        destruct (file_data_sizes_loop_undefined fs pre rest path contents 0
                    o1 Hpre Hpath) as [ws Hws]; rewrite Hws
    end.
    eexists; split; reflexivity.
  - unfold generate_file_data.
    rewrite (bind_appends _ _ _ _ (appends_fprintf _)).
    unfold bind at 1.
    match goal with
    | |- context [file_data_loop fs 0 _ ?o1] =>
        destruct (file_data_loop_stops fs pre rest path contents 0
                    o1 Hpre Hpath) as [ws Hws]; rewrite Hws
    end.
    eexists; split; reflexivity.
Qed.

Lemma size_pass_uses_null_stream_witness :
  read_all scenario_files ["a.txt"] = Some [chars "hi"]
  /\ scenario_files "missing.txt" = None
  /\ (exists o',
        generate_file_data_sizes scenario_files
          (Some (["a.txt"] ++ "missing.txt" :: [])) (mkOut [] [])
        = Undefined o'
        /\ err o' = err (mkOut [] []))
  /\ (exists o',
        generate_file_data scenario_files
          (Some (["a.txt"] ++ "missing.txt" :: [])) (mkOut [] [])
        = Exit 1 o'
        /\ err o'
           = err (mkOut [] [])
               ++ [("Could not open file: '" ++ "missing.txt" ++ "'" ++ LF)%string]).
Proof.
  split; [reflexivity|]. split; [reflexivity|].
  apply (size_pass_uses_null_stream scenario_files ["a.txt"] []
           "missing.txt" [chars "hi"] (mkOut [] [])); reflexivity.
Defined.

(* ================================================================== *)
(** * A run without [--header] *)

(** C3, against the code: with [--function], [--source] and input files but
    no [--header], the run prints its notice and opens the source file, and
    then hands the null header path to [fopen].  A library that tolerates the
    null pointer makes that open fail, and the run ends with [EXIT_FAILURE];
    otherwise the behaviour is undefined.  In neither case does the run
    complete, and nothing is written to the source file. *)
Theorem run_without_header_does_not_complete
    (w : world) (exec_name : string) (args : list string)
    (cfg : config) (source name : string)
    (Hparse : parse_args exec_name args no_config (mkOut [] [])
              = Ok cfg (mkOut [] []))
    (Hsource : source_file cfg = Some source)
    (Hname : function_name cfg = Some name)
    (Hheader : header_file cfg = None)
    (Hwritable : writable w source = true) :
  status (main w exec_name args)
  = (if null_tolerant w then Some EXIT_FAILURE else None)
  /\ hd_error (stderr (main w exec_name args))
     = Some ("Notice: Not producing a header file because --header was not "
               ++ "provided" ++ LF)%string
  /\ opened (main w exec_name args) = [source]
  /\ source_out (main w exec_name args) = []
  /\ header_out (main w exec_name args) = [].
Proof.
  unfold main, bind. rewrite Hparse.
  unfold check_config. rewrite Hsource, Hname, Hheader.
  cbn [when]. rewrite eprintf_run. unfold ret. cbv beta iota.
  rewrite Hheader, Hwritable. cbn [negb].
  destruct (null_tolerant w); repeat split; reflexivity.
Qed.

Lemma run_without_header_does_not_complete_witness :
  let args := ["--function"; "get_file"; "--source"; "files.c"; "a.txt"] in
  let cfg := mkConfig (Some "get_file") (Some "files.c") None
               (Some ["a.txt"]) false in
  parse_args "embed" args no_config (mkOut [] []) = Ok cfg (mkOut [] [])
  /\ source_file cfg = Some "files.c"
  /\ function_name cfg = Some "get_file"
  /\ header_file cfg = None
  /\ writable scenario_world "files.c" = true
  /\ status (main scenario_world "embed" args)
     = (if null_tolerant scenario_world then Some EXIT_FAILURE else None)
  /\ hd_error (stderr (main scenario_world "embed" args))
     = Some ("Notice: Not producing a header file because --header was not "
               ++ "provided" ++ LF)%string
  /\ opened (main scenario_world "embed" args) = ["files.c"]
  /\ source_out (main scenario_world "embed" args) = []
  /\ header_out (main scenario_world "embed" args) = [].
Proof.
  cbv zeta.
  split; [reflexivity|]. split; [reflexivity|]. split; [reflexivity|].
  split; [reflexivity|]. split; [reflexivity|].
  apply (run_without_header_does_not_complete scenario_world "embed"
           ["--function"; "get_file"; "--source"; "files.c"; "a.txt"]
           (mkConfig (Some "get_file") (Some "files.c") None
              (Some ["a.txt"]) false) "files.c" "get_file");
    reflexivity.
Defined.

(* ================================================================== *)
(** * Options behind the first input file *)

(** The loop stops at the first argument that is not an option and takes it
    and all that follows as the input files, without looking at them. *)
Lemma parse_args_first_file (exec_name file : string) (rest : list string)
    (cfg : config) (o : out) :
  is_long_option file = false ->
  input_files cfg = None ->
  parse_args exec_name (file :: rest) cfg o
  = Ok (mkConfig (function_name cfg) (source_file cfg) (header_file cfg)
          (Some (file :: rest)) (preserve_paths cfg)) o.
Proof.
  intros Hfile Hnone. cbn [parse_args]. now rewrite Hfile, Hnone.
Qed.

Lemma existsb_snoc {A} (f : A -> bool) (l : list A) (a : A) :
  f a = false -> existsb f (l ++ [a]) = existsb f l.
Proof.
  intros Ha. rewrite existsb_app. cbn [existsb]. rewrite Ha.
  now rewrite !orb_false_r.
Qed.

(** Entered with a null [input_files], the argument loop never prints the
    message that asks for all options before the files: the branch that
    prints it needs [input_files] set, and the loop is left as soon as it
    is. *)
Lemma parse_args_never_rejects (exec_name : string) (args : list string) :
  forall cfg o,
    input_files cfg = None ->
    reports_option_after_files (parse_args exec_name args cfg o)
    = existsb (String.eqb options_after_files_message) (err o).
Proof.
  induction args as [|a rest IH1 IH2] using list_ind_two; intros cfg o Hnone.
  - reflexivity.
  - cbn [parse_args]. destruct (is_long_option a); [|reflexivity].
    rewrite Hnone.
    destruct (String.eqb (option_name a) "source").
    { destruct rest as [|v rest']; [reflexivity | now eapply IH2]. }
    destruct (String.eqb (option_name a) "header").
    { destruct rest as [|v rest']; [reflexivity | now eapply IH2]. }
    destruct (String.eqb (option_name a) "function").
    { destruct rest as [|v rest']; [reflexivity | now eapply IH2]. }
    destruct (String.eqb (option_name a) "help").
    { rewrite print_help_run. unfold exit.
      cbn [reports_option_after_files err].
      now rewrite !existsb_snoc by reflexivity. }
    destruct (String.eqb (option_name a) "preserve-paths").
    { now apply IH1. }
    rewrite eprintf_run, print_help_run. unfold exit.
    cbn [reports_option_after_files err].
    now rewrite !existsb_snoc by reflexivity.
Qed.

(** C8, against the code: an option placed after the first input file is not
    rejected.  For no invocation does the argument loop print its message
    about options behind the files.  Whatever follows the input files of the
    scenario, options included, the loop prints nothing and returns it as
    part of the file list; with [--preserve-paths] there and a file of that
    name, the run succeeds, prints no usage, does not preserve paths, and
    embeds that file as well. *)
Theorem option_after_files_is_taken_as_file
    (exec_name : string) (args rest : list string) (o : out) :
  reports_option_after_files (parse_args exec_name args no_config o)
  = existsb (String.eqb options_after_files_message) (err o)
  /\ parse_args "embed" (scenario_args ++ rest) no_config (mkOut [] [])
     = Ok (mkConfig (Some "get_file") (Some "files.c") (Some "files.h")
             (Some ("a.txt" :: "sub/b.txt" :: rest)) false) (mkOut [] [])
  /\ status (main dashed_world "embed" (scenario_args ++ ["--preserve-paths"]))
     = Some EXIT_SUCCESS
  /\ stderr (main dashed_world "embed" (scenario_args ++ ["--preserve-paths"]))
     = []
  /\ option_map EMBEDDED_FILE_NAMES
       (read_tables
          (tokens
             (source_out
                (main dashed_world "embed"
                   (scenario_args ++ ["--preserve-paths"])))))
     = Some [Ptr (c_array "a.txt"); Ptr (c_array "b.txt");
             Ptr (c_array "--preserve-paths"); Ptr [NUL]].
Proof.
  split; [now apply parse_args_never_rejects|].
  split.
  - unfold scenario_args. cbn [app].
    change (parse_args "embed"
              ("--function" :: "get_file" :: "--source" :: "files.c"
                 :: "--header" :: "files.h" :: "a.txt" :: "sub/b.txt" :: rest)
              no_config (mkOut [] []))
      with (parse_args "embed" ("a.txt" :: "sub/b.txt" :: rest)
              (mkConfig (Some "get_file") (Some "files.c") (Some "files.h")
                 None false) (mkOut [] [])).
    now rewrite parse_args_first_file.
  - repeat split; vm_compute; reflexivity.
Qed.

(* ================================================================== *)
(** * A run without input files *)

(** The file list the loop returns starts at an argument that is not an
    option: without such an argument the pointer stays null. *)
Lemma parse_args_files (exec_name : string) (args : list string) :
  forall cfg o cfg' o' l,
    parse_args exec_name args cfg o = Ok cfg' o' ->
    input_files cfg = None ->
    input_files cfg' = Some l ->
    exists pre file rest,
      args = pre ++ l /\ l = file :: rest /\ is_long_option file = false.
Proof.
  induction args as [|a rest IH1 IH2] using list_ind_two;
    intros cfg o cfg' o' l.
  - intros H Hn Hl. injection H as <- <-. congruence.
  - cbn [parse_args]. destruct (is_long_option a) eqn:Hopt.
    + intros H Hn. rewrite Hn in H.
      assert (Hstep :
        forall c, input_files c = None ->
          match rest with
          | [] => ret c
          | _ :: rest' => parse_args exec_name rest' c
          end o = Ok cfg' o' ->
          input_files cfg' = Some l ->
          exists pre file rest0,
            a :: rest = pre ++ l /\ l = file :: rest0
            /\ is_long_option file = false).
      { intros c Hc Hrun Hl. destruct rest as [|v rest'].
        - injection Hrun as <- <-. congruence.
        - destruct (IH2 v rest' eq_refl _ _ _ _ _ Hrun Hc Hl)
            as (pre & file & rest0 & -> & -> & Hf).
          exists (a :: v :: pre), file, rest0. now repeat split. }
      destruct (String.eqb (option_name a) "source");
        [intros Hl; eapply Hstep; [| exact H | exact Hl]; reflexivity|].
      destruct (String.eqb (option_name a) "header");
        [intros Hl; eapply Hstep; [| exact H | exact Hl]; reflexivity|].
      destruct (String.eqb (option_name a) "function");
        [intros Hl; eapply Hstep; [| exact H | exact Hl]; reflexivity|].
      destruct (String.eqb (option_name a) "help"); [discriminate|].
      destruct (String.eqb (option_name a) "preserve-paths"); [|discriminate].
      intros Hl.
      destruct (IH1 _ _ _ _ _ H eq_refl Hl) as (pre & file & rest0 & -> & -> & Hf).
      exists (a :: pre), file, rest0. now repeat split.
    + intros H Hn Hl. injection H as <- <-. rewrite Hn in Hl.
      cbn [input_files] in Hl. injection Hl as <-.
      exists [], a, rest. now repeat split.
Qed.

(** C10, as stated, fails: a run without input files can reach a defined
    end.  Without any argument the file pointer stays null, and the run is
    stopped by the check for [--source] with [EXIT_FAILURE]. *)
Lemma run_without_files_can_exit :
  parse_args "embed" [] no_config (mkOut [] []) = Ok no_config (mkOut [] [])
  /\ input_files no_config = None
  /\ status (main scenario_world "embed" []) = Some EXIT_FAILURE
  /\ opened (main scenario_world "embed" []) = [].
Proof. repeat split. Qed.

(** C10, amended: when the invocation supplies no bare argument, the pointer
    to the input files stays null, and each of the three emitters reads
    through it: its behaviour is undefined.  Such a run never succeeds: it is
    either stopped before the emitters with [EXIT_FAILURE], nothing written,
    or it has no defined behaviour; and when the function name and both
    output paths are given and both files open, it reaches the emitters and
    has no defined behaviour. *)
Theorem run_without_files
    (w : world) (exec_name : string) (args : list string) (cfg : config)
    (Hparse : parse_args exec_name args no_config (mkOut [] [])
              = Ok cfg (mkOut [] []))
    (Hnone : input_files cfg = None) :
  (forall o, exists o',
     generate_file_list (input_files cfg) (preserve_paths cfg) o
     = Undefined o')
  /\ (forall o, exists o',
        generate_file_data (files w) (input_files cfg) o = Undefined o')
  /\ (forall o, exists o',
        generate_file_data_sizes (files w) (input_files cfg) o = Undefined o')
  /\ (status (main w exec_name args) = None
      \/ (status (main w exec_name args) = Some EXIT_FAILURE
          /\ source_out (main w exec_name args) = []))
  /\ (forall source name header,
        source_file cfg = Some source ->
        function_name cfg = Some name ->
        header_file cfg = Some header ->
        writable w source = true ->
        writable w header = true ->
        status (main w exec_name args) = None).
Proof.
  rewrite Hnone.
  split; [intros o; eexists; reflexivity|].
  split; [intros o; eexists; reflexivity|].
  split; [intros o; eexists; reflexivity|].
  assert (Hrun :
    forall source name header,
      source_file cfg = Some source ->
      function_name cfg = Some name ->
      header_file cfg = Some header ->
      writable w source = true ->
      writable w header = true ->
      status (main w exec_name args) = None).
  { intros source name header Hs Hf Hh Hws Hwh.
    unfold main, bind. rewrite Hparse.
    destruct (check_config_ok exec_name cfg source name (mkOut [] []) Hs Hf)
      as [notice Hcheck].
    rewrite Hcheck. unfold ret. cbv beta iota.
    rewrite Hh, Hws, Hwh. cbn [negb fd err].
    destruct (emit_source_null_files (files w) cfg name
                (mkOut [] ([] ++ notice)) Hnone) as [o' Ho'].
    now rewrite Ho'. }
  split; [|exact Hrun].
  destruct (source_file cfg) as [source|] eqn:Hs.
  2:{ right. destruct (main_unconfigured w exec_name args cfg _ Hparse
                         (or_introl Hs)) as (H1 & _ & H3 & _). now split. }
  destruct (function_name cfg) as [name|] eqn:Hf.
  2:{ right. destruct (main_unconfigured w exec_name args cfg _ Hparse
                         (or_intror Hf)) as (H1 & _ & H3 & _). now split. }
  destruct (header_file cfg) as [header|] eqn:Hh.
  2:{ unfold main, bind. rewrite Hparse.
      destruct (check_config_ok exec_name cfg source name (mkOut [] []) Hs Hf)
        as [notice Hcheck].
      rewrite Hcheck. unfold ret. cbv beta iota. rewrite Hh.
      destruct (negb (writable w source)); [right; now split|].
      destruct (null_tolerant w); [right; now split | now left]. }
  destruct (writable w source) eqn:Hws.
  2:{ unfold main, bind. rewrite Hparse.
      destruct (check_config_ok exec_name cfg source name (mkOut [] []) Hs Hf)
        as [notice Hcheck].
      rewrite Hcheck. unfold ret. cbv beta iota. rewrite Hws.
      right; now split. }
  destruct (writable w header) eqn:Hwh.
  2:{ unfold main, bind. rewrite Hparse.
      destruct (check_config_ok exec_name cfg source name (mkOut [] []) Hs Hf)
        as [notice Hcheck].
      rewrite Hcheck. unfold ret. cbv beta iota. rewrite Hh, Hws, Hwh.
      right; now split. }
  left. now apply (Hrun source name header).
Qed.

Lemma run_without_files_witness :
  let args := ["--function"; "get_file"; "--source"; "files.c";
               "--header"; "files.h"] in
  let cfg := mkConfig (Some "get_file") (Some "files.c") (Some "files.h")
               None false in
  parse_args "embed" args no_config (mkOut [] []) = Ok cfg (mkOut [] [])
  /\ input_files cfg = None
  /\ status (main scenario_world "embed" args) = None.
Proof.
  cbv zeta. split; [reflexivity|]. split; [reflexivity|].
  destruct (run_without_files scenario_world "embed"
              ["--function"; "get_file"; "--source"; "files.c";
               "--header"; "files.h"]
              (mkConfig (Some "get_file") (Some "files.c") (Some "files.h")
                 None false) eq_refl eq_refl) as (_ & _ & _ & _ & Hrun).
  apply (Hrun "files.c" "get_file" "files.h"); reflexivity.
Defined.

(* ================================================================== *)
(** * The generated lookup function on the generated tables *)

Lemma c_str_c_array_some (s : string) : exists s', c_str (c_array s) = Some s'.
Proof.
  induction s as [|c s [s' IH]].
  - now exists EmptyString.
  - unfold c_array in *. cbn [chars list_ascii_of_string app c_str].
    destruct (Ascii.eqb c NUL); [now eexists|].
    unfold chars in IH. rewrite IH. now eexists.
Qed.

Lemma c_str_c_array (s : string) : nul_free s -> c_str (c_array s) = Some s.
Proof.
  unfold nul_free, c_array. induction s as [|c s IH]; [reflexivity|].
  cbn [chars list_ascii_of_string app c_str]. intros Hfree.
  destruct (Ascii.eqb c NUL) eqn:Hc.
  - apply Ascii.eqb_eq in Hc. exfalso. apply Hfree. now left.
  - unfold chars in IH. rewrite IH; [reflexivity|].
    intros Hin. apply Hfree. now right.
Qed.

(** The scan over names none of which is [filename] runs into the sentinel,
    which is not a null pointer, and from there out of the arrays. *)
Lemma lookup_loop_absent (t : tables) (filename : string) (length : option N)
    (names : list string) :
  forall i,
    (forall s, In s names -> c_str (c_array s) <> Some filename) ->
    List.length (EMBEDDED_FILE_DATA t) = i + List.length names ->
    lookup_loop t filename length i
      (map (fun s => Ptr (c_array s)) names ++ [Ptr [NUL]])
    = OutOfBounds.
Proof.
  induction names as [|s names IH]; intros i Habsent Hlen.
  - cbn [map app lookup_loop c_str].
    change (Ascii.eqb NUL NUL) with true. cbv iota.
    destruct (String.eqb filename ""); [|reflexivity].
    assert (Hnone : nth_error (EMBEDDED_FILE_DATA t) i = None).
    { apply nth_error_None. simpl in Hlen. lia. }
    rewrite Hnone.
    destruct length; [|reflexivity].
    now destruct (nth_error (EMBEDDED_FILE_DATA_SIZES t) i).
  - cbn [map app lookup_loop].
    destruct (c_str_c_array_some s) as [s' Hs']. rewrite Hs'.
    destruct (String.eqb filename s') eqn:E.
    + apply String.eqb_eq in E. subst s'.
      exfalso. apply (Habsent s); [now left | assumption].
    + apply IH.
      * intros s0 Hin. apply Habsent. now right.
      * simpl in Hlen. lia.
Qed.

(** The scan stops at the first name that is [filename] and returns the
    elements of the data and size tables at its index. *)
Lemma lookup_loop_present (t : tables) (filename : string) (length : option N)
    (before after : list string) (name : string) (p : cptr) (n : N) :
  forall i,
    (forall s, In s before -> c_str (c_array s) <> Some filename) ->
    c_str (c_array name) = Some filename ->
    nth_error (EMBEDDED_FILE_DATA t) (i + List.length before) = Some p ->
    nth_error (EMBEDDED_FILE_DATA_SIZES t) (i + List.length before) = Some n ->
    lookup_loop t filename length i
      (map (fun s => Ptr (c_array s)) (before ++ name :: after)
         ++ [Ptr [NUL]])
    = Returned p (option_map (fun _ => n) length).
Proof.
  induction before as [|s before IH]; intros i Habsent Hname Hp Hn.
  - cbn [app map lookup_loop]. rewrite Hname, String.eqb_refl.
    rewrite Nat.add_0_r in Hp, Hn. rewrite Hp, Hn.
    now destruct length.
  - cbn [app map lookup_loop].
    destruct (c_str_c_array_some s) as [s' Hs']. rewrite Hs'.
    destruct (String.eqb filename s') eqn:E.
    + apply String.eqb_eq in E. subst s'.
      exfalso. apply (Habsent s); [now left | assumption].
    + apply IH.
      * intros s0 Hin. apply Habsent. now right.
      * assumption.
      * now rewrite Nat.add_succ_comm.
      * now rewrite Nat.add_succ_comm.
Qed.

(** For a name that is in the name table, the function returns the payload
    at the index of its first occurrence and stores the size at that index
    when a length slot is given. *)
Lemma lookup_present_name (preserve : bool) (before after : list string)
    (path : string) (contents : list (list ascii)) (content : list ascii)
    (filename : string) (length : option N) :
  (forall p, In p before ->
             c_str (c_array (display_name preserve p)) <> Some filename) ->
  c_str (c_array (display_name preserve path)) = Some filename ->
  nth_error contents (List.length before) = Some content ->
  lookup (tables_of preserve (before ++ path :: after) contents)
    filename length
  = Returned (Ptr (content ++ [NUL]))
      (option_map (fun _ => N.of_nat (List.length content)) length).
Proof.
  intros Habsent Hname Hcontent. unfold lookup.
  cbn [tables_of EMBEDDED_FILE_NAMES].
  rewrite <- (map_map (display_name preserve) (fun s => Ptr (c_array s))).
  rewrite map_app. cbn [map].
  apply lookup_loop_present.
  - intros s Hin. apply in_map_iff in Hin as [p [<- Hp]]. now apply Habsent.
  - assumption.
  - cbn [tables_of EMBEDDED_FILE_DATA]. rewrite length_map, Nat.add_0_l.
    now rewrite nth_error_map, Hcontent.
  - cbn [tables_of EMBEDDED_FILE_DATA_SIZES]. rewrite length_map, Nat.add_0_l.
    now rewrite nth_error_map, Hcontent.
Qed.

Lemma removelast_snoc {A} (l : list A) (a : A) : removelast (l ++ [a]) = l.
Proof. rewrite removelast_app by discriminate. simpl. apply app_nil_r. Qed.

(** C1, against the code: for a name that is not in the name table the
    generated function does not return [NULL].  The element that ends the
    name table is [(char[]){0}], the address of an array, while the loop of
    the function stops at a null pointer only; so after a successful run, a
    lookup of any name that none of the real elements of the table spells
    reads beyond the end of the arrays. *)
Theorem lookup_absent_name_out_of_bounds
    (w : world) (exec_name : string) (args : list string) (t : tables)
    (filename : string) (length : option N)
    (Hok : status (main w exec_name args) = Some EXIT_SUCCESS)
    (Htables : read_tables (tokens (source_out (main w exec_name args)))
               = Some t)
    (Habsent : forall arr,
        In (Ptr arr) (removelast (EMBEDDED_FILE_NAMES t)) ->
        c_str arr <> Some filename) :
  lookup t filename length = OutOfBounds.
Proof.
  destruct (main_success w exec_name args Hok)
    as (cfg & source & name & header & l & contents
        & _ & _ & _ & _ & _ & Hread & _ & Htables' & _).
  rewrite Htables' in Htables. injection Htables as <-.
  destruct (read_all_nth (files w) l contents Hread) as [Hlen _].
  unfold lookup. cbn [tables_of EMBEDDED_FILE_NAMES] in *.
  rewrite removelast_snoc in Habsent.
  rewrite <- (map_map (display_name (preserve_paths cfg))
                (fun s => Ptr (c_array s))).
  apply lookup_loop_absent.
  - intros s Hin. apply Habsent.
    apply in_map_iff in Hin as [p [<- Hp]].
    apply in_map_iff. now exists p.
  - cbn [tables_of EMBEDDED_FILE_DATA]. rewrite !length_map. simpl. exact Hlen.
Qed.

Lemma lookup_absent_name_out_of_bounds_witness :
  let t := mkTables
             [Ptr (c_array "a.txt"); Ptr (c_array "b.txt"); Ptr [NUL]]
             [Ptr (chars "hi" ++ [NUL]); Ptr (chars "!" ++ [NUL])]
             [2%N; 1%N] in
  status (main scenario_world "embed" scenario_args) = Some EXIT_SUCCESS
  /\ read_tables
       (tokens (source_out (main scenario_world "embed" scenario_args)))
     = Some t
  /\ lookup t "sub/b.txt" (Some 0%N) = OutOfBounds.
Proof.
  cbv zeta.
  split; [vm_compute; reflexivity|]. split; [vm_compute; reflexivity|].
  apply (lookup_absent_name_out_of_bounds scenario_world "embed"
           scenario_args).
  - vm_compute; reflexivity.
  - vm_compute; reflexivity.
  - intros arr [H|[H|[]]]; injection H as <-; vm_compute; discriminate.
Defined.

(* ================================================================== *)
(** * The tokens of the writes are the tokens of the text *)

Lemma append_assoc (a b c : string) :
  ((a ++ b) ++ c = a ++ (b ++ c))%string.
Proof. induction a as [|x a IH]; [reflexivity|]. cbn [append]. now rewrite IH. Qed.

Lemma append_nil_r (a : string) : (a ++ "" = a)%string.
Proof. induction a as [|x a IH]; [reflexivity|]. cbn [append]. now rewrite IH. Qed.

Lemma render_app (a b : list write) :
  render (a ++ b) = (render a ++ render b)%string.
Proof.
  unfold render. induction a as [|w a IH]; [reflexivity|].
  cbn [app map]. destruct a as [|w' a].
  - cbn [app map String.concat]. destruct b as [|w'' b].
    + cbn [map String.concat]. now rewrite append_nil_r.
    + reflexivity.
  - cbn [app map String.concat] in *. rewrite IH.
    cbn [append]. now rewrite append_assoc.
Qed.

Lemma render_cons (w : write) (ws : list write) :
  render (w :: ws) = (render_write w ++ render ws)%string.
Proof.
  change (w :: ws) with ([w] ++ ws). rewrite render_app.
  unfold render at 1. cbn [map String.concat]. reflexivity.
Qed.

Lemma reads_closed_open (ws : list write) : reads_closed ws -> reads_open ws.
Proof. intros H rest _. apply H. Qed.

Lemma reads_closed_nil : reads_closed [].
Proof. intros rest. reflexivity. Qed.

Lemma reads_closed_app (a b : list write) :
  reads_closed a -> reads_closed b -> reads_closed (a ++ b).
Proof.
  intros Ha Hb rest.
  rewrite render_app, append_assoc, Ha, Hb, tokens_app. now rewrite app_assoc.
Qed.

Lemma reads_closed_open_app (a b : list write) :
  reads_closed a -> reads_open b -> reads_open (a ++ b).
Proof.
  intros Ha Hb rest Hrest.
  rewrite render_app, append_assoc, Ha, Hb, tokens_app by assumption.
  now rewrite app_assoc.
Qed.

Lemma reads_open_app (a b : list write) :
  reads_open a -> clean_head b -> reads_open b -> reads_open (a ++ b).
Proof.
  intros Ha Hhead Hb rest Hrest.
  rewrite render_app, append_assoc, Ha by now apply Hhead.
  rewrite Hb, tokens_app by assumption. now rewrite app_assoc.
Qed.

Lemma reads_open_closed_app (a b : list write) :
  reads_open a -> (forall rest, starts_clean (render b ++ rest)) ->
  reads_closed b -> reads_closed (a ++ b).
Proof.
  intros Ha Hhead Hb rest.
  rewrite render_app, append_assoc, Ha by apply Hhead.
  rewrite Hb, tokens_app. now rewrite app_assoc.
Qed.

(** A character that is white space or a comma ends an identifier or a
    number. *)
Lemma lex_from_clean (st : lex_state) (c : ascii) (rest : string) :
  clean c = true ->
  match st with
  | LStart | LIdent _ | LZero | LNum _ _ => True
  | _ => False
  end ->
  lex_from st (String c rest) = lex_flush st ++ lex_from LStart (String c rest).
Proof.
  intros Hc Hst.
  assert (Hd : forall base, digit_value base c = None).
  { intros base. unfold digit_value.
    destruct c as [[] [] [] [] [] [] [] []]; try discriminate Hc; reflexivity. }
  assert (Hl : is_letter c || is_digit c = false).
  { destruct c as [[] [] [] [] [] [] [] []]; try discriminate Hc; reflexivity. }
  assert (Hx : Ascii.eqb c "x" || Ascii.eqb c "X" = false).
  { destruct c as [[] [] [] [] [] [] [] []]; try discriminate Hc; reflexivity. }
  destruct st; try contradiction; cbn [lex_from lex_step lex_flush app].
  - reflexivity.
  - rewrite Hl. unfold lex_restart. destruct (lex_start c) as [ts st'].
    cbn [lex_flush]. now rewrite <- app_assoc.
  - rewrite Hx, Hd. unfold lex_restart. destruct (lex_start c) as [ts st'].
    cbn [lex_flush]. now rewrite <- app_assoc.
  - rewrite Hd. unfold lex_restart. destruct (lex_start c) as [ts st'].
    cbn [lex_flush]. now rewrite <- app_assoc.
Qed.

Lemma lex_from_starts_clean (st : lex_state) (rest : string) :
  starts_clean rest ->
  match st with
  | LStart | LIdent _ | LZero | LNum _ _ => True
  | _ => False
  end ->
  lex_from st rest = lex_flush st ++ lex rest.
Proof.
  destruct rest as [|c rest]; intros Hc Hst.
  - cbn [lex_from]. unfold lex. cbn [lex_from lex_flush]. now rewrite app_nil_r.
  - now apply lex_from_clean.
Qed.

Lemma lex_hex_literal_run (c : ascii) (rest : string) :
  lex (hex_literal c ++ rest) = lex_from (LNum 16 (N_of_ascii c)) rest.
Proof. destruct c as [[] [] [] [] [] [] [] []]; reflexivity. Qed.

Lemma reads_open_hex (c : ascii) : reads_open [Hex c].
Proof.
  intros rest Hrest. rewrite render_cons. cbn [render_write].
  change (render []) with EmptyString. rewrite append_nil_r.
  rewrite lex_hex_literal_run, lex_from_starts_clean by easy.
  cbn [tokens flat_map]. now rewrite tokens_hex, app_nil_r.
Qed.

Lemma lex_decimal_digits_run (d : Decimal.uint) (acc : positive)
    (rest : string) :
  lex_from (LNum 10 (Npos acc)) (NilEmpty.string_of_uint d ++ rest)
  = lex_from (LNum 10 (Npos (Pos.of_uint_acc d acc))) rest.
Proof.
  revert acc; induction d as [|d IHd|d IHd|d IHd|d IHd|d IHd|d IHd|d IHd|d IHd
                                |d IHd|d IHd]; intros acc;
    [reflexivity | ..];
    cbn [NilEmpty.string_of_uint append lex_from Pos.of_uint_acc];
    match goal with
    | |- context [lex_step (LNum 10 (Npos acc)) ?c] =>
        let v := eval vm_compute in (digit_value 10 c) in
        match v with
        | Some ?k =>
            change (lex_step (LNum 10 (Npos acc)) c)
              with (@nil token, LNum 10 (Npos acc * 10 + k))
        end
    end;
    cbn [app];
    match goal with
    | |- lex_from (LNum 10 ?n) _ = lex_from (LNum 10 (Npos (Pos.of_uint_acc _ ?p))) _ =>
        replace n with (Npos p) by lia
    end;
    apply IHd.
Qed.

Lemma reads_open_zu (n : N) : reads_open [Zu n].
Proof.
  intros rest Hrest. rewrite render_cons. cbn [render_write].
  change (render []) with EmptyString. rewrite append_nil_r.
  cbn [tokens flat_map]. rewrite tokens_zu, app_nil_r.
  unfold decimal.
  assert (Hn : Decimal.unorm (N.to_uint n) = N.to_uint n).
  { rewrite <- (DecimalN.Unsigned.to_of (N.to_uint n)).
    now rewrite DecimalN.Unsigned.of_to. }
  rewrite <- (DecimalN.Unsigned.of_to n) at 2.
  destruct (N.to_uint n) as [|d|d|d|d|d|d|d|d|d|d] eqn:E;
    [discriminate Hn | ..].
  1:{ apply unorm_fixed_zero in Hn. subst d.
      change (lex ((TAB ++ NilEmpty.string_of_uint (Decimal.D0 Decimal.Nil))
                     ++ rest))
        with (lex_from LZero rest).
      now rewrite lex_from_starts_clean. }
  all: match goal with
       | |- lex ((TAB ++ NilEmpty.string_of_uint (?D ?d')) ++ ?r) = _ =>
           let k := eval vm_compute in (N.of_uint (D Decimal.Nil)) in
           change (lex ((TAB ++ NilEmpty.string_of_uint (D d')) ++ r))
             with (lex_from (LNum 10 k) (NilEmpty.string_of_uint d' ++ r))
       end;
    rewrite lex_decimal_digits_run, lex_from_starts_clean by easy;
    reflexivity.
Qed.

(** A path that is safe to print in a comment leaves the lexer inside the
    comment, which the text [ */] then ends. *)
Lemma lex_comment_body (s : string) (star : bool) (rest : string) :
  stays_in_comment star s = true ->
  lex_from (if star then LBlockStar else LBlock) (s ++ " */" ++ LF ++ rest)
  = lex rest.
Proof.
  revert star; induction s as [|c s IH]; intros star Hsafe.
  - destruct star; reflexivity.
  - cbn [stays_in_comment] in Hsafe. cbn [append lex_from].
    destruct star; cbn [andb] in Hsafe; cbn [lex_step].
    + destruct (Ascii.eqb c "/"); [discriminate|].
      specialize (IH (Ascii.eqb c "*") Hsafe).
      destruct (Ascii.eqb c "*"); exact IH.
    + specialize (IH (Ascii.eqb c "*") Hsafe).
      destruct (Ascii.eqb c "*"); exact IH.
Qed.

Lemma comment_safe_stays (s : string) :
  comment_safe s = true -> stays_in_comment false s = true.
Proof.
  induction s as [|c s IH]; [reflexivity|].
  cbn [comment_safe stays_in_comment andb]. intros H.
  apply andb_prop in H as [Hc Hs].
  destruct (Ascii.eqb c "*"); [discriminate Hc | now apply IH].
Qed.

Lemma reads_closed_comment (s : string) :
  comment_safe s = true -> reads_closed [Comment s].
Proof.
  intros Hsafe rest. apply comment_safe_stays in Hsafe. rewrite render_cons. cbn [render_write].
  change (render []) with EmptyString. rewrite append_nil_r.
  rewrite !append_assoc.
  change (lex (TAB ++ "/* " ++ s ++ " */" ++ LF ++ rest))
    with (lex_from LBlock (s ++ " */" ++ LF ++ rest)).
  now rewrite (lex_comment_body s false).
Qed.

Lemma appends_unique (m : W unit) (ws ws' : list write) :
  appends m ws -> appends m ws' -> ws = ws'.
Proof.
  intros H H'. specialize (H (mkOut [] [])). rewrite H' in H.
  now injection H.
Qed.

Ltac closed_text := intro; reflexivity.

(** The writes of the inner loop of [generate_file_list], as text. *)
Lemma name_chars_reads (input_file : string) (count : nat) :
  exists ws,
    appends (name_chars count input_file) ws
    /\ reads_open ws
    /\ ((count =? 0)%nat = false ->
        forall rest, starts_clean (render ws ++ rest)).
Proof.
  revert count; induction input_file as [|c s IH]; intros count.
  - exists ((if negb (count =? 0)%nat
             then [Text ", "]
                    ++ (if (count mod HEX_COLS =? 0)%nat
                        then [Text (LF ++ TAB ++ TAB)] else [])
             else []) ++ [Hex NUL]).
    split; [cbn [name_chars]; eauto 12 with appends|].
    split.
    + apply reads_closed_open_app; [|apply reads_open_hex].
      destruct (count =? 0)%nat; cbn [negb]; [apply reads_closed_nil|].
      apply reads_closed_app; [closed_text|].
      destruct (count mod HEX_COLS =? 0)%nat;
        [closed_text | apply reads_closed_nil].
    + intros Hcount rest. rewrite Hcount. cbn [negb app].
      rewrite render_cons. reflexivity.
  - destruct (IH (S count)) as [ws [Hws [Hopen Hhead]]].
    exists ((if negb (count =? 0)%nat
             then [Text ", "]
                    ++ (if (count mod HEX_COLS =? 0)%nat
                        then [Text (LF ++ TAB ++ TAB)] else [])
             else []) ++ [Hex c] ++ ws).
    split; [cbn [name_chars]; eauto 12 with appends|].
    split.
    + apply reads_closed_open_app.
      * destruct (count =? 0)%nat; cbn [negb]; [apply reads_closed_nil|].
        apply reads_closed_app; [closed_text|].
        destruct (count mod HEX_COLS =? 0)%nat;
          [closed_text | apply reads_closed_nil].
      * apply reads_open_app; [apply reads_open_hex | | assumption].
        intros rest _. now apply Hhead.
    + intros Hcount rest. rewrite Hcount. cbn [negb app].
      rewrite render_cons. reflexivity.
Qed.

(** The writes of the read loop of [generate_file_data], as text. *)
Lemma data_chars_reads (infd : list ascii) (count : nat) :
  exists ws, appends (data_chars count infd) ws /\ reads_closed ws.
Proof.
  revert count; induction infd as [|c rest IH]; intros count.
  - exists []. split; [apply appends_ret | apply reads_closed_nil].
  - destruct (IH (S count)) as [ws [Hws Hclosed]].
    exists ([Hex c] ++ [Text ", "]
              ++ (if ((count + 1) mod HEX_COLS =? 0)%nat
                  then [Text (LF ++ TAB ++ TAB)] else []) ++ ws).
    split; [cbn [data_chars]; eauto 12 with appends|].
    rewrite app_assoc. apply reads_closed_app.
    + apply reads_open_closed_app;
        [apply reads_open_hex | intros r; rewrite render_cons; reflexivity
         | closed_text].
    + apply reads_closed_app; [|assumption].
      destruct ((count + 1) mod HEX_COLS =? 0)%nat;
        [closed_text | apply reads_closed_nil].
Qed.

Lemma comment_safe_suffix (dir name : string) :
  comment_safe (dir ++ name) = true -> comment_safe name = true.
Proof.
  induction dir as [|c dir IH]; [easy|].
  cbn [append comment_safe]. intros H.
  apply andb_prop in H as [_ H]. now apply IH.
Qed.

Lemma comment_safe_display_name (preserve : bool) (path : string) :
  comment_safe path = true ->
  comment_safe (display_name preserve path) = true.
Proof.
  destruct preserve; [easy|]. cbn [display_name].
  destruct (plain_name_spec path) as [dir [Hdir _]].
  intros H. rewrite Hdir in H. now apply comment_safe_suffix in H.
Qed.

Lemma file_list_loop_reads (preserve : bool) (l : list string) :
  Forall (fun p => comment_safe (display_name preserve p) = true) l ->
  exists ws, appends (file_list_loop preserve l) ws /\ reads_closed ws.
Proof.
  induction 1 as [|path l Hsafe _ [ws [Hws Hclosed]]].
  - exists []. split; [apply appends_ret | apply reads_closed_nil].
  - destruct (name_chars_reads (display_name preserve path) 0)
      as [wn [Hwn [Hopen _]]].
    exists ([Comment (display_name preserve path)]
              ++ [Text (TAB ++ "(char[]){" ++ LF ++ TAB ++ TAB)]
              ++ wn ++ [Text (LF ++ TAB ++ "}," ++ LF)] ++ ws).
    split.
    + cbn [file_list_loop].
      replace (if negb preserve then plain_name path else path)
        with (display_name preserve path) by (now destruct preserve).
      eauto 12 with appends.
    + apply reads_closed_app;
        [now apply reads_closed_comment|].
      apply reads_closed_app; [closed_text|].
      rewrite app_assoc. apply reads_closed_app; [|assumption].
      apply reads_open_closed_app;
        [assumption | intros r; rewrite render_cons; reflexivity | closed_text].
Qed.

Lemma generate_file_list_reads (preserve : bool) (l : list string) :
  Forall (fun p => comment_safe (display_name preserve p) = true) l ->
  exists ws,
    appends (generate_file_list (Some l) preserve) ws /\ reads_closed ws.
Proof.
  intros Hsafe.
  destruct (file_list_loop_reads preserve l Hsafe) as [ws [Hws Hclosed]].
  exists ([Text ("static const char* EMBEDDED_FILE_NAMES[] = {" ++ LF)]
            ++ ws ++ [Text (TAB ++ "(char[]){0}" ++ LF)]
            ++ [Text (LF ++ "};" ++ LF ++ LF)]).
  split; [unfold generate_file_list; eauto 12 with appends|].
  apply reads_closed_app; [closed_text|].
  apply reads_closed_app; [assumption|].
  apply reads_closed_app; closed_text.
Qed.

Lemma file_data_loop_reads (fs : filesystem) (l : list string)
    (contents : list (list ascii)) (file_count : nat) :
  read_all fs l = Some contents ->
  Forall (fun p => comment_safe p = true) l ->
  exists ws, appends (file_data_loop fs file_count l) ws /\ reads_closed ws.
Proof.
  intros Hread Hsafe. revert contents file_count Hread.
  induction Hsafe as [|path l Hpath _ IH]; intros contents file_count Hread.
  - exists []. split; [apply appends_ret | apply reads_closed_nil].
  - cbn [read_all] in Hread.
    destruct (fs path) as [content|] eqn:Hp; [|discriminate].
    destruct (read_all fs l) as [rest|] eqn:Hrest; [|discriminate].
    destruct (IH rest (S file_count) eq_refl) as [ws [Hws Hclosed]].
    destruct (data_chars_reads content 0) as [wd [Hwd Hdclosed]].
    exists ((if negb (file_count =? 0)%nat then [Text ("," ++ LF)] else [])
              ++ [Comment path]
              ++ [Text (TAB ++ "(char[]){" ++ LF ++ TAB ++ TAB)]
              ++ wd ++ [Hex NUL] ++ [Text (LF ++ TAB ++ "}")] ++ ws).
    split.
    + rewrite (file_data_loop_open fs file_count path l content Hp).
      eauto 12 with appends.
    + apply reads_closed_app.
      { destruct (file_count =? 0)%nat; cbn [negb];
          [apply reads_closed_nil | closed_text]. }
      apply reads_closed_app; [now apply reads_closed_comment|].
      apply reads_closed_app; [closed_text|].
      apply reads_closed_app; [assumption|].
      rewrite app_assoc. apply reads_closed_app; [|assumption].
      apply reads_open_closed_app;
        [apply reads_open_hex | intros r; rewrite render_cons; reflexivity
         | closed_text].
Qed.

Lemma generate_file_data_reads (fs : filesystem) (l : list string)
    (contents : list (list ascii)) :
  read_all fs l = Some contents ->
  Forall (fun p => comment_safe p = true) l ->
  exists ws,
    appends (generate_file_data fs (Some l)) ws /\ reads_closed ws.
Proof.
  intros Hread Hsafe.
  destruct (file_data_loop_reads fs l contents 0 Hread Hsafe)
    as [ws [Hws Hclosed]].
  exists ([Text ("static const char* EMBEDDED_FILE_DATA[] = {" ++ LF ++ "  ")]
            ++ ws ++ [Text (LF ++ "};" ++ LF ++ LF)]).
  split; [unfold generate_file_data; eauto 12 with appends|].
  apply reads_closed_app; [closed_text|].
  apply reads_closed_app; [assumption | closed_text].
Qed.

Lemma file_data_sizes_loop_reads (fs : filesystem) (l : list string)
    (contents : list (list ascii)) (file_count : nat) :
  read_all fs l = Some contents ->
  Forall (fun p => comment_safe p = true) l ->
  exists ws,
    appends (file_data_sizes_loop fs file_count l) ws
    /\ reads_open ws
    /\ ((file_count =? 0)%nat = false -> clean_head ws).
Proof.
  intros Hread Hsafe. revert contents file_count Hread.
  induction Hsafe as [|path l Hpath _ IH]; intros contents file_count Hread.
  - exists []. split; [apply appends_ret|].
    split; [apply reads_closed_open, reads_closed_nil|].
    intros _ rest Hrest. exact Hrest.
  - cbn [read_all] in Hread.
    destruct (fs path) as [content|] eqn:Hp; [|discriminate].
    destruct (read_all fs l) as [rest|] eqn:Hrest; [|discriminate].
    destruct (IH rest (S file_count) eq_refl) as [ws [Hws [Hopen Hhead]]].
    exists ((if negb (file_count =? 0)%nat then [Text ("," ++ LF)] else [])
              ++ [Comment path] ++ [Zu (N.of_nat (List.length content))] ++ ws).
    split.
    + rewrite (file_data_sizes_loop_open fs file_count path l content Hp).
      eauto 12 with appends.
    + split.
      * apply reads_closed_open_app.
        { destruct (file_count =? 0)%nat; cbn [negb];
            [apply reads_closed_nil | closed_text]. }
        apply reads_closed_open_app; [now apply reads_closed_comment|].
        apply reads_open_app; [apply reads_open_zu | now apply Hhead | assumption].
      * intros Hcount r _. rewrite Hcount. cbn [negb app].
        rewrite render_cons. reflexivity.
Qed.

Lemma generate_file_data_sizes_reads (fs : filesystem) (l : list string)
    (contents : list (list ascii)) :
  read_all fs l = Some contents ->
  Forall (fun p => comment_safe p = true) l ->
  exists ws,
    appends (generate_file_data_sizes fs (Some l)) ws /\ reads_closed ws.
Proof.
  intros Hread Hsafe.
  destruct (file_data_sizes_loop_reads fs l contents 0 Hread Hsafe)
    as [ws [Hws [Hopen _]]].
  exists ([Text ("static size_t EMBEDDED_FILE_DATA_SIZES[] = {" ++ LF ++ "  ")]
            ++ ws ++ [Text (LF ++ "};" ++ LF ++ LF)]).
  split; [unfold generate_file_data_sizes; eauto 12 with appends|].
  apply reads_closed_app; [closed_text|].
  apply reads_open_closed_app;
    [assumption | intros r; rewrite render_cons; reflexivity | closed_text].
Qed.

(** All that [main] writes on the source stream, as text: a C compiler that
    lexes the file finds the three tables in it. *)
Lemma emit_source_text (fs : filesystem) (cfg : config) (name : string)
    (l : list string) (contents : list (list ascii)) (ws : list write) :
  input_files cfg = Some l ->
  read_all fs l = Some contents ->
  Forall (fun p => comment_safe p = true) l ->
  appends (emit_source fs cfg name) ws ->
  read_tables (lex (render ws))
  = Some (tables_of (preserve_paths cfg) l contents).
Proof.
  intros Hl Hread Hsafe Hws.
  destruct (generate_file_list_writes (preserve_paths cfg) l) as [w1 [H1 T1]].
  destruct (generate_file_data_writes fs l contents Hread) as [w2 [H2 T2]].
  destruct (generate_file_data_sizes_writes fs l contents Hread)
    as [w3 [H3 T3]].
  assert (Hnames :
    Forall (fun p => comment_safe (display_name (preserve_paths cfg) p) = true)
      l).
  { apply Forall_forall. intros p Hp. apply comment_safe_display_name.
    now apply (proj1 (Forall_forall _ l) Hsafe). }
  destruct (generate_file_list_reads (preserve_paths cfg) l Hnames)
    as [w1' [H1' R1]].
  destruct (generate_file_data_reads fs l contents Hread Hsafe)
    as [w2' [H2' R2]].
  destruct (generate_file_data_sizes_reads fs l contents Hread Hsafe)
    as [w3' [H3' R3]].
  rewrite <- (appends_unique _ _ _ H1 H1') in R1.
  rewrite <- (appends_unique _ _ _ H2 H2') in R2.
  rewrite <- (appends_unique _ _ _ H3 H3') in R3.
  assert (Hshape :
    appends (emit_source fs cfg name)
      (([Text ("#include <stdlib.h>" ++ LF ++ "#include <string.h>" ++ LF)]
          ++ w1 ++ w2 ++ w3)
         ++ [Text (function_text name)] ++ [Text LF])).
  { unfold emit_source. rewrite Hl. unfold generate_function.
    rewrite <- !app_assoc. eauto 12 with appends. }
  rewrite (appends_unique _ _ _ Hws Hshape).
  assert (Hclosed :
    reads_closed
      ([Text ("#include <stdlib.h>" ++ LF ++ "#include <string.h>" ++ LF)]
         ++ w1 ++ w2 ++ w3)).
  { apply reads_closed_app; [closed_text|].
    apply reads_closed_app; [assumption|].
    now apply reads_closed_app. }
  rewrite render_app, Hclosed.
  rewrite !tokens_app, T1, T2, T3. rewrite <- ?app_assoc.
  apply read_tables_arrays; try closed_without_ident.
  - rewrite map_app. apply all_some_app.
    + rewrite map_map. apply all_some_map. intros p _.
      apply as_pointer_char_array.
    + reflexivity.
  - rewrite map_map. apply all_some_map. intros c _.
    apply as_pointer_char_array.
  - rewrite map_map. now apply all_some_map.
Qed.



(* ================================================================== *)
(** * The tables in the text of the generated file *)










(** After a successful run whose input paths hold no [*], the text of the
    generated source file, cut into tokens, holds the same three tables as
    the sequence of writes that produced it read call by call: for such
    paths the two readings of the model agree. *)
Theorem generated_text_tables
    (w : world) (exec_name : string) (args : list string)
    (Hok : status (main w exec_name args) = Some EXIT_SUCCESS)
    (Hsafe : Forall (fun p => comment_safe p = true)
               (input_paths exec_name args)) :
  read_tables (lex (render (source_out (main w exec_name args))))
  = read_tables (tokens (source_out (main w exec_name args))).
Proof.
  destruct (main_success w exec_name args Hok)
    as (cfg & source & name & header & l & contents
        & Hparse & _ & _ & _ & Hl & Hread & _ & Htables & Hws).
  rewrite Htables.
  unfold input_paths in Hsafe. rewrite Hparse, Hl in Hsafe.
  now apply (emit_source_text (files w) cfg name l contents).
Qed.

Lemma generated_text_tables_witness :
  status (main scenario_world "embed" scenario_args) = Some EXIT_SUCCESS
  /\ Forall (fun p => comment_safe p = true)
       (input_paths "embed" scenario_args)
  /\ read_tables
       (lex (render (source_out (main scenario_world "embed" scenario_args))))
     = read_tables
         (tokens (source_out (main scenario_world "embed" scenario_args))).
Proof.
  assert (Hsafe : Forall (fun p => comment_safe p = true)
                    (input_paths "embed" scenario_args)).
  { repeat constructor. }
  split; [vm_compute; reflexivity|]. split; [exact Hsafe|].
  apply (generated_text_tables scenario_world "embed" scenario_args);
    [vm_compute; reflexivity | exact Hsafe].
Defined.

(* ================================================================== *)
(** * The scenarios of the specification *)

(** The text of the source file generated for the scenario. *)
Example scenario_source_text :
  render (source_out (main scenario_world "embed" scenario_args))
  = ("#include <stdlib.h>" ++ LF
     ++ "#include <string.h>" ++ LF
     ++ "static const char* EMBEDDED_FILE_NAMES[] = {" ++ LF
     ++ TAB ++ "/* a.txt */" ++ LF
     ++ TAB ++ "(char[]){" ++ LF
     ++ TAB ++ TAB ++ "0x61, 0x2E, 0x74, 0x78, 0x74, 0x00" ++ LF
     ++ TAB ++ "}," ++ LF
     ++ TAB ++ "/* b.txt */" ++ LF
     ++ TAB ++ "(char[]){" ++ LF
     ++ TAB ++ TAB ++ "0x62, 0x2E, 0x74, 0x78, 0x74, 0x00" ++ LF
     ++ TAB ++ "}," ++ LF
     ++ TAB ++ "(char[]){0}" ++ LF
     ++ LF ++ "};" ++ LF ++ LF
     ++ "static const char* EMBEDDED_FILE_DATA[] = {" ++ LF
     ++ "  " ++ TAB ++ "/* a.txt */" ++ LF
     ++ TAB ++ "(char[]){" ++ LF
     ++ TAB ++ TAB ++ "0x68, 0x69, 0x00" ++ LF
     ++ TAB ++ "}," ++ LF
     ++ TAB ++ "/* sub/b.txt */" ++ LF
     ++ TAB ++ "(char[]){" ++ LF
     ++ TAB ++ TAB ++ "0x21, 0x00" ++ LF
     ++ TAB ++ "}" ++ LF ++ "};" ++ LF ++ LF
     ++ "static size_t EMBEDDED_FILE_DATA_SIZES[] = {" ++ LF
     ++ "  " ++ TAB ++ "/* a.txt */" ++ LF
     ++ TAB ++ "2," ++ LF
     ++ TAB ++ "/* sub/b.txt */" ++ LF
     ++ TAB ++ "1" ++ LF ++ "};" ++ LF ++ LF
     ++ function_text "get_file" ++ LF)%string.
Proof. vm_compute. reflexivity. Qed.

Example scenario_header_text :
  render (header_out (main scenario_world "embed" scenario_args))
  = ("#ifndef _FILES_H_" ++ LF
     ++ "#define _FILES_H_" ++ LF
     ++ "#include <stdlib.h>" ++ LF
     ++ "#include <string.h>" ++ LF ++ LF
     ++ "const char* get_file(const char* filename, size_t* length);" ++ LF
     ++ LF ++ "#endif" ++ LF)%string.
Proof. vm_compute. reflexivity. Qed.

Example scenario_tables :
  read_tables (lex (render (source_out
                              (main scenario_world "embed" scenario_args))))
  = Some (mkTables
            [Ptr (c_array "a.txt"); Ptr (c_array "b.txt"); Ptr [NUL]]
            [Ptr (chars "hi" ++ [NUL]); Ptr (chars "!" ++ [NUL])]
            [2%N; 1%N]).
Proof. vm_compute. reflexivity. Qed.

(** The lookups of the scenario: the two names in the table are found; a
    name that is not in it is not answered with [NULL]. *)
Example scenario_lookups :
  let t := tables_of false ["a.txt"; "sub/b.txt"] [chars "hi"; chars "!"] in
  lookup t "b.txt" (Some 0%N) = Returned (Ptr (chars "!" ++ [NUL])) (Some 1%N)
  /\ lookup t "a.txt" (Some 0%N)
     = Returned (Ptr (chars "hi" ++ [NUL])) (Some 2%N)
  /\ lookup t "a.txt" None = Returned (Ptr (chars "hi" ++ [NUL])) None
  /\ lookup t "sub/b.txt" (Some 0%N) = OutOfBounds.
Proof. repeat split. Qed.

Example scenario_lookups_preserved :
  let t := tables_of true ["a.txt"; "sub/b.txt"] [chars "hi"; chars "!"] in
  lookup t "sub/b.txt" (Some 0%N)
  = Returned (Ptr (chars "!" ++ [NUL])) (Some 1%N)
  /\ lookup t "b.txt" (Some 0%N) = OutOfBounds.
Proof. repeat split. Qed.

(** With a null pointer in the place of the sentinel, the same scan answers
    [NULL] for a name that is not in the table and leaves the slot alone. *)
Example null_sentinel_lookup :
  lookup (mkTables [Ptr (c_array "a.txt"); Ptr (c_array "b.txt"); Null]
            [Ptr (chars "hi" ++ [NUL]); Ptr (chars "!" ++ [NUL])]
            [2%N; 1%N])
    "sub/b.txt" (Some 7%N)
  = Returned Null (Some 7%N).
Proof. reflexivity. Qed.

Lemma lookup_present_name_witness :
  (forall p, In p ["a.txt"] ->
             c_str (c_array (display_name false p)) <> Some "b.txt")
  /\ c_str (c_array (display_name false "sub/b.txt")) = Some "b.txt"
  /\ nth_error [chars "hi"; chars "!"] (List.length ["a.txt"])
     = Some (chars "!")
  /\ lookup
       (tables_of false (["a.txt"] ++ "sub/b.txt" :: [])
          [chars "hi"; chars "!"])
       "b.txt" (Some 0%N)
     = Returned (Ptr (chars "!" ++ [NUL]))
         (option_map (fun _ => N.of_nat (List.length (chars "!")))
            (Some 0%N)).
Proof.
  assert (H : forall p, In p ["a.txt"] ->
                        c_str (c_array (display_name false p)) <> Some "b.txt").
  { intros p [<-|[]]. vm_compute. discriminate. }
  split; [exact H|]. split; [reflexivity|]. split; [reflexivity|].
  apply (lookup_present_name false ["a.txt"] [] "sub/b.txt"
           [chars "hi"; chars "!"] (chars "!") "b.txt" (Some 0%N) H);
    reflexivity.
Defined.

(* ################################################################## *)
(** * Further properties of the generator *)

(* ================================================================== *)
(** * [output_hex] *)

(** [output_hex] prints every byte as four characters, [0x] and two
    uppercase hexadecimal digits, and the constant it prints reads back as
    the byte: its value is below 256 and is the code of the byte taken as
    unsigned. *)
Theorem output_hex_reads_back (b : ascii) :
  appends (output_hex b) [Hex b]
  /\ (exists h l : ascii,
        render [Hex b] = String "0" (String "x" (String h (String l "")))
        /\ (is_digit h || in_range "A" "F" h) = true
        /\ (is_digit l || in_range "A" "F" l) = true)
  /\ (exists n : N,
        lex (render [Hex b]) = [TNum n]
        /\ (n < 256)%N
        /\ ascii_of_N n = b).
Proof.
  split; [apply appends_output_hex|].
  split.
  { destruct b as [[] [] [] [] [] [] [] []];
      eexists; eexists; (split; [reflexivity|]); split; reflexivity. }
  exists (N_of_ascii b). split.
  { unfold render. cbn [map String.concat render_write].
    apply lex_hex_literal. }
  split; [apply N_ascii_bounded | apply ascii_N_embedding].
Qed.

(* ================================================================== *)
(** * [plain_name] *)

Lemma plain_name_loop_behind_separator (dir name no_path : string) :
  plain_name_loop no_path (dir ++ String PATH_SEPARATOR name)
  = plain_name_loop name name.
Proof.
  revert no_path; induction dir as [|c dir IH]; intros no_path.
  - reflexivity.
  - cbn [append plain_name_loop].
    destruct (Ascii.eqb c PATH_SEPARATOR); apply IH.
Qed.

(** [plain_name] looks at the last segment only: whatever directory part is
    put in front of a name, the result is that of the name alone; a path
    that ends with the separator gives the empty name; and a second
    application changes nothing. *)
Theorem plain_name_last_segment (dir name : string) :
  plain_name (dir ++ String PATH_SEPARATOR name) = plain_name name
  /\ plain_name (dir ++ "/") = EmptyString
  /\ plain_name (plain_name name) = plain_name name
  /\ (exists k, name = (k ++ plain_name name)%string).
Proof.
  split; [apply plain_name_loop_behind_separator|].
  split; [apply (plain_name_loop_behind_separator dir EmptyString)|].
  destruct (plain_name_spec name) as [k [Hk [Hfree _]]].
  split; [|now exists k].
  unfold plain_name at 1.
  now apply (proj1 (plain_name_loop_spec (plain_name name) (plain_name name))).
Qed.

(* ================================================================== *)
(** * The include guard *)

Lemma define_char_is_letter (c : ascii) :
  is_letter (define_char c) = true /\ is_digit (define_char c) = false
  /\ define_char (define_char c) = define_char c.
Proof. destruct c as [[] [] [] [] [] [] [] []]; repeat split. Qed.

Lemma lex_guard_tail (s acc : string) :
  lex_from (LIdent acc) (generate_define_name s ++ "_")
  = [TIdent (acc ++ generate_define_name s ++ "_")].
Proof.
  revert acc; induction s as [|c s IH]; intros acc.
  - reflexivity.
  - cbn [generate_define_name append lex_from lex_step].
    destruct (define_char_is_letter c) as [Hl _]. rewrite Hl. cbn [orb app].
    rewrite IH. now rewrite append_assoc.
Qed.

(** Whatever the header path holds (separators, dots, spaces, bytes above
    127), the guard [_NAME_] that [main] builds from it is a single C
    identifier; it starts with an underscore followed by an uppercase
    letter or an underscore; and building the name from a name already
    built changes nothing. *)
Theorem include_guard_is_identifier (header : string) :
  lex ("_" ++ generate_define_name header ++ "_")
  = [TIdent ("_" ++ generate_define_name header ++ "_")]
  /\ (exists c rest,
        (generate_define_name header ++ "_")%string = String c rest
        /\ (in_range "A" "Z" c || Ascii.eqb c "_") = true)
  /\ generate_define_name (generate_define_name header)
     = generate_define_name header.
Proof.
  split; [apply (lex_guard_tail header "_")|].
  split.
  - destruct header as [|c s].
    + now exists "_"%char, EmptyString.
    + exists (define_char c), (generate_define_name s ++ "_")%string.
      split; [reflexivity|].
      destruct c as [[] [] [] [] [] [] [] []]; reflexivity.
  - induction header as [|c s IH]; [reflexivity|].
    cbn [generate_define_name]. rewrite IH.
    now destruct (define_char_is_letter c) as (_ & _ & ->).
Qed.

(* ================================================================== *)
(** * The shape of a run *)

(** The checks, on a configuration that has a source path and a function
    name. *)
Lemma check_config_passes (exec_name : string) (cfg : config)
    (source name : string) (o : out) :
  source_file cfg = Some source ->
  function_name cfg = Some name ->
  check_config exec_name cfg o
  = Ok (source, name) (mkOut (fd o) (err o ++ check_notice cfg)).
Proof.
  intros Hs Hf. unfold check_config, check_notice. rewrite Hs, Hf.
  destruct (header_file cfg).
  - destruct o as [f e]. unfold bind, when, ret. cbn [fd err].
    now rewrite app_nil_r.
  - reflexivity.
Qed.

(** [main], once its arguments are read and checked. *)
Lemma main_configured (w : world) (exec_name : string) (args : list string)
    (cfg : config) (source name : string) :
  parse_args exec_name args no_config (mkOut [] []) = Ok cfg (mkOut [] []) ->
  source_file cfg = Some source ->
  function_name cfg = Some name ->
  main w exec_name args
  = main_after_checks w cfg source name (check_notice cfg).
Proof.
  intros Hparse Hs Hf. unfold main, bind. rewrite Hparse.
  rewrite (check_config_passes exec_name cfg source name _ Hs Hf).
  reflexivity.
Qed.

(** Every failure of the argument loop ends with the usage text. *)
Lemma parse_args_failure (exec_name : string) (args : list string) :
  forall cfg o st o',
    parse_args exec_name args cfg o = Exit st o' ->
    st = EXIT_FAILURE
    /\ fd o' = fd o
    /\ exists pre,
         err o' = err o ++ pre ++ [help_intro; help_usage exec_name].
Proof.
  induction args as [|a rest IH1 IH2] using list_ind_two;
    intros cfg o st o'.
  - discriminate.
  - cbn [parse_args]. destruct (is_long_option a); [|discriminate].
    destruct (input_files cfg).
    { rewrite eprintf_run, print_help_run. unfold exit. cbn [fd err].
      intros H. injection H as <- <-. split; [reflexivity|].
      split; [reflexivity|]. exists [options_after_files_message].
      cbn [err]. now rewrite <- !app_assoc. }
    destruct (String.eqb (option_name a) "source").
    { destruct rest as [|v rest']; [discriminate | now eapply IH2]. }
    destruct (String.eqb (option_name a) "header").
    { destruct rest as [|v rest']; [discriminate | now eapply IH2]. }
    destruct (String.eqb (option_name a) "function").
    { destruct rest as [|v rest']; [discriminate | now eapply IH2]. }
    destruct (String.eqb (option_name a) "help").
    { rewrite print_help_run. unfold exit. cbn [fd err].
      intros H. injection H as <- <-. split; [reflexivity|].
      split; [reflexivity|]. exists []. cbn [err app].
      now rewrite <- !app_assoc. }
    destruct (String.eqb (option_name a) "preserve-paths").
    { apply IH1. }
    rewrite eprintf_run, print_help_run. unfold exit. cbn [fd err].
    intros H. injection H as <- <-. split; [reflexivity|].
    split; [reflexivity|].
    exists [("Unrecognized option '--" ++ option_name a ++ "'" ++ LF)%string].
    cbn [err]. now rewrite <- !app_assoc.
Qed.

(** A run that the argument loop or a check stops. *)
Lemma main_stopped_early (w : world) (exec_name : string)
    (args : list string) :
  (exists cfg source name,
     parse_args exec_name args no_config (mkOut [] []) = Ok cfg (mkOut [] [])
     /\ source_file cfg = Some source
     /\ function_name cfg = Some name)
  \/ (status (main w exec_name args) = Some EXIT_FAILURE
      /\ opened (main w exec_name args) = []
      /\ source_out (main w exec_name args) = []
      /\ header_out (main w exec_name args) = []
      /\ exists pre,
           stderr (main w exec_name args)
           = pre ++ [help_intro; help_usage exec_name]).
Proof.
  pose proof (parse_args_outcome exec_name args no_config (mkOut [] [])) as Hout.
  inversion Hout as [cfg Hparse | msgs Hparse]; symmetry in Hparse.
  - destruct (source_file cfg) as [source|] eqn:Hs.
    + destruct (function_name cfg) as [name|] eqn:Hf.
      * left. now exists cfg, source, name.
      * right.
        destruct (main_unconfigured w exec_name args cfg _ Hparse
                    (or_intror Hf)) as (H1 & H2 & H3 & H4).
        do 4 (split; [assumption|]).
        exists (check_notice cfg
                  ++ [("Error: You must provide --function for the file get function "
                         ++ "name" ++ LF ++ LF)%string]).
        unfold main, bind. rewrite Hparse.
        unfold check_config, check_notice. rewrite Hs, Hf.
        destruct (header_file cfg); reflexivity.
    + right.
      destruct (main_unconfigured w exec_name args cfg _ Hparse
                  (or_introl Hs)) as (H1 & H2 & H3 & H4).
      do 4 (split; [assumption|]).
      exists [("Error: You must provide --source for the output source file"
                 ++ LF ++ LF)%string].
      unfold main, bind. rewrite Hparse.
      unfold check_config. rewrite Hs. reflexivity.
  - destruct (parse_args_failure exec_name args _ _ _ _ Hparse)
      as (_ & _ & pre & Herr).
    right. unfold main, bind. rewrite Hparse.
    do 4 (split; [reflexivity|]).
    exists pre. cbn [stderr]. exact Herr.
Qed.

Lemma emit_source_outcome (fs : filesystem) (cfg : config) (name : string)
    (e : list string) :
  source_outcome fs cfg e (emit_source fs cfg name (mkOut [] e)).
Proof.
  destruct (input_files cfg) as [l|] eqn:Hl.
  2:{ unfold emit_source. rewrite Hl. now apply SourceUndefined. }
  destruct (read_all fs l) as [contents|] eqn:Hread.
  - destruct (emit_source_writes fs cfg name l contents Hl Hread)
      as [ws [Hws Htables]].
    rewrite Hws. cbn [fd err app]. now apply (SourceWritten fs cfg e l contents).
  - destruct (read_all_none fs l Hread)
      as (pre & path & rest & contents & -> & Hpre & Hpath).
    destruct (generate_file_list_writes (preserve_paths cfg)
                (pre ++ path :: rest)) as [w1 [H1 _]].
    unfold emit_source. rewrite Hl.
    rewrite (bind_appends _ _ _ _ (appends_fprintf _)).
    rewrite (bind_appends _ _ _ _ H1).
    unfold generate_file_data.
    unfold bind at 1. unfold bind at 1.
    rewrite (appends_fprintf _ _).
    unfold bind at 1.
    match goal with
    | |- context [file_data_loop fs 0 _ ?o1] =>
        destruct (file_data_loop_stops fs pre rest path contents 0 o1 Hpre Hpath)
          as [ws Hws]; rewrite Hws
    end.
    cbn [fd err app]. rewrite <- !app_assoc.
    now apply (SourceStopped fs cfg e pre rest path contents w1).
Qed.

Lemma emit_header_writes (header name : string) :
  exists ws,
    appends (emit_header header name) ws
    /\ render ws = header_text header name
    /\ ws <> [].
Proof.
  eexists. split; [unfold emit_header, generate_function_declaration;
                   eauto 12 with appends|].
  split; [|discriminate].
  unfold render, header_text. cbn [app map String.concat render_write].
  now rewrite !append_assoc.
Qed.

(* ================================================================== *)
(** * Exit status, diagnostics and files of a run *)

(** Whatever the arguments and the machine: a run that ends does so with
    status 0 or 1; a run that succeeds has printed no diagnostic and has
    opened exactly the source and the header file; a run that fails has
    printed at least one diagnostic and written nothing to the header file;
    and a run without defined behaviour has opened the source file before
    and written nothing to the header file. *)
Theorem run_outcome_invariants
    (w : world) (exec_name : string) (args : list string) :
  match status (main w exec_name args) with
  | Some st =>
      (st = EXIT_SUCCESS
       /\ stderr (main w exec_name args) = []
       /\ List.length (opened (main w exec_name args)) = 2
       /\ header_out (main w exec_name args) <> [])
      \/ (st = EXIT_FAILURE
          /\ stderr (main w exec_name args) <> []
          /\ header_out (main w exec_name args) = [])
  | None =>
      opened (main w exec_name args) <> []
      /\ header_out (main w exec_name args) = []
  end.
Proof.
  destruct (main_stopped_early w exec_name args)
    as [(cfg & source & name & Hparse & Hs & Hf)
       | (Hst & _ & _ & Hh & pre & Herr)].
  2:{ rewrite Hst. right. split; [reflexivity|]. split; [|assumption].
      rewrite Herr. intros H. now apply app_eq_nil in H as [_ H]. }
  rewrite (main_configured w exec_name args cfg source name Hparse Hs Hf).
  unfold main_after_checks.
  destruct (negb (writable w source)).
  { right. split; [reflexivity|]. split; [|reflexivity].
    cbn [stderr]. intros H. now apply app_eq_nil in H as [_ H]. }
  unfold check_notice.
  destruct (header_file cfg) as [header|] eqn:Hh.
  2:{ destruct (null_tolerant w); cbn [status].
      - right. split; [reflexivity|]. split; [discriminate | reflexivity].
      - split; [discriminate | reflexivity]. }
  destruct (negb (writable w header)).
  { right. split; [reflexivity|]. split; [discriminate | reflexivity]. }
  destruct (emit_source_outcome (files w) cfg name [])
    as [l contents ws _ _ _ | pre rest path contents w1 ws _ _ _ _ | ws _].
  - destruct (emit_header_writes header name) as [wh [Hwh [_ Hne]]].
    rewrite Hwh. cbn [status stderr opened header_out fd err app].
    left. repeat split; try reflexivity. exact Hne.
  - cbn [status stderr header_out err app]. right.
    split; [reflexivity|]. split; [discriminate | reflexivity].
  - cbn [status opened header_out]. split; [discriminate | reflexivity].
Qed.

(* ================================================================== *)
(** * The run that succeeds *)

(** With a function name, a source path and a header path given, both
    output files writable, every input file readable and no [*] in an input
    path, the run succeeds without a diagnostic; the header file holds the
    include guard built from the header path, the two includes and the
    declaration of the function; and the text of the source file, read as
    C, holds the three tables of the input files. *)
Theorem configured_run_succeeds
    (w : world) (exec_name : string) (args : list string) (cfg : config)
    (source name header : string) (l : list string)
    (contents : list (list ascii))
    (Hparse : parse_args exec_name args no_config (mkOut [] [])
              = Ok cfg (mkOut [] []))
    (Hsource : source_file cfg = Some source)
    (Hname : function_name cfg = Some name)
    (Hheader : header_file cfg = Some header)
    (Hfiles : input_files cfg = Some l)
    (Hws : writable w source = true)
    (Hwh : writable w header = true)
    (Hread : read_all (files w) l = Some contents)
    (Hsafe : Forall (fun p => comment_safe p = true) l) :
  status (main w exec_name args) = Some EXIT_SUCCESS
  /\ stderr (main w exec_name args) = []
  /\ opened (main w exec_name args) = [source; header]
  /\ render (header_out (main w exec_name args)) = header_text header name
  /\ read_tables (lex (render (source_out (main w exec_name args))))
     = Some (tables_of (preserve_paths cfg) l contents).
Proof.
  rewrite (main_configured w exec_name args cfg source name Hparse Hsource
             Hname).
  unfold main_after_checks, check_notice. rewrite Hheader, Hws, Hwh.
  cbn [negb].
  destruct (emit_source_writes (files w) cfg name l contents Hfiles Hread)
    as [ws [Hsrc _]].
  pose proof (emit_source_text (files w) cfg name l contents ws Hfiles Hread
                Hsafe Hsrc) as Htables.
  destruct (emit_header_writes header name) as [wh [Hhdr [Htext _]]].
  rewrite Hsrc. cbn [fd err app]. rewrite Hhdr. cbn [fd err app].
  cbn [status stderr opened header_out source_out].
  repeat split; assumption.
Qed.

Lemma configured_run_succeeds_witness :
  let cfg := mkConfig (Some "get_file") (Some "files.c") (Some "files.h")
               (Some ["a.txt"; "sub/b.txt"]) false in
  parse_args "embed" scenario_args no_config (mkOut [] [])
  = Ok cfg (mkOut [] [])
  /\ read_all (files scenario_world) ["a.txt"; "sub/b.txt"]
     = Some [chars "hi"; chars "!"]
  /\ Forall (fun p => comment_safe p = true) ["a.txt"; "sub/b.txt"]
  /\ status (main scenario_world "embed" scenario_args) = Some EXIT_SUCCESS
  /\ stderr (main scenario_world "embed" scenario_args) = []
  /\ opened (main scenario_world "embed" scenario_args)
     = ["files.c"; "files.h"]
  /\ render (header_out (main scenario_world "embed" scenario_args))
     = header_text "files.h" "get_file"
  /\ read_tables (lex (render (source_out
                                 (main scenario_world "embed" scenario_args))))
     = Some (tables_of (preserve_paths cfg) ["a.txt"; "sub/b.txt"]
               [chars "hi"; chars "!"]).
Proof.
  cbv zeta.
  assert (Hsafe : Forall (fun p => comment_safe p = true)
                    ["a.txt"; "sub/b.txt"]).
  { repeat constructor. }
  split; [reflexivity|]. split; [reflexivity|]. split; [exact Hsafe|].
  apply (configured_run_succeeds scenario_world "embed" scenario_args
           (mkConfig (Some "get_file") (Some "files.c") (Some "files.h")
              (Some ["a.txt"; "sub/b.txt"]) false)
           "files.c" "get_file" "files.h" ["a.txt"; "sub/b.txt"]
           [chars "hi"; chars "!"]); try reflexivity; exact Hsafe.
Defined.

(* ================================================================== *)
(** * The run that an input file stops *)



(* ================================================================== *)
(** * Output files that cannot be written *)

(** The output files are opened in order, the source file first.  If the
    source file cannot be opened the run fails with a diagnostic that names
    it and no file is touched; if the header file cannot be opened the run
    fails with a diagnostic that names it, and the source file has been
    created or truncated by then and is left empty.  No input file is read
    in either case: nothing but these diagnostics is printed. *)
Theorem unwritable_output_stops_run
    (w : world) (exec_name : string) (args : list string) (cfg : config)
    (source name header : string)
    (Hparse : parse_args exec_name args no_config (mkOut [] [])
              = Ok cfg (mkOut [] []))
    (Hsource : source_file cfg = Some source)
    (Hname : function_name cfg = Some name)
    (Hheader : header_file cfg = Some header)
    (Hlocked : writable w source = false \/ writable w header = false) :
  status (main w exec_name args) = Some EXIT_FAILURE
  /\ source_out (main w exec_name args) = []
  /\ header_out (main w exec_name args) = []
  /\ (if writable w source
      then opened (main w exec_name args) = [source]
           /\ stderr (main w exec_name args)
              = [("Could not open output header file '" ++ header ++ "'"
                    ++ LF)%string]
      else opened (main w exec_name args) = []
           /\ stderr (main w exec_name args)
              = [("Could not open output source file '" ++ source ++ "'"
                    ++ LF)%string]).
Proof.
  rewrite (main_configured w exec_name args cfg source name Hparse Hsource
             Hname).
  unfold main_after_checks, check_notice. rewrite Hheader.
  destruct (writable w source); cbn [negb].
  - destruct Hlocked as [H|H]; [discriminate|]. rewrite H. cbn [negb].
    repeat split.
  - repeat split.
Qed.

Lemma unwritable_output_stops_run_witness :
  let cfg := mkConfig (Some "get_file") (Some "files.c") (Some "files.h")
               (Some ["a.txt"; "sub/b.txt"]) false in
  parse_args "embed" scenario_args no_config (mkOut [] [])
  = Ok cfg (mkOut [] [])
  /\ (writable header_locked_world "files.c" = false
      \/ writable header_locked_world "files.h" = false)
  /\ status (main header_locked_world "embed" scenario_args)
     = Some EXIT_FAILURE
  /\ source_out (main header_locked_world "embed" scenario_args) = []
  /\ header_out (main header_locked_world "embed" scenario_args) = []
  /\ (if writable header_locked_world "files.c"
      then opened (main header_locked_world "embed" scenario_args)
           = ["files.c"]
           /\ stderr (main header_locked_world "embed" scenario_args)
              = [("Could not open output header file '" ++ "files.h" ++ "'"
                    ++ LF)%string]
      else opened (main header_locked_world "embed" scenario_args) = []
           /\ stderr (main header_locked_world "embed" scenario_args)
              = [("Could not open output source file '" ++ "files.c" ++ "'"
                    ++ LF)%string]).
Proof.
  cbv zeta. split; [reflexivity|]. split; [right; reflexivity|].
  apply (unwritable_output_stops_run header_locked_world "embed"
           scenario_args
           (mkConfig (Some "get_file") (Some "files.c") (Some "files.h")
              (Some ["a.txt"; "sub/b.txt"]) false)
           "files.c" "get_file" "files.h");
    try reflexivity.
  right; reflexivity.
Defined.

(* ================================================================== *)
(** * The usage text *)

(** A run that prints the usage text has been stopped by the argument loop
    or by a configuration check: it ends with [EXIT_FAILURE], the usage is
    the last thing it prints, and it has opened no file. *)
Theorem usage_means_nothing_opened
    (w : world) (exec_name : string) (args : list string)
    (Husage : In (help_usage exec_name) (stderr (main w exec_name args))) :
  status (main w exec_name args) = Some EXIT_FAILURE
  /\ opened (main w exec_name args) = []
  /\ source_out (main w exec_name args) = []
  /\ header_out (main w exec_name args) = []
  /\ exists pre,
       stderr (main w exec_name args)
       = pre ++ [help_intro; help_usage exec_name].
Proof.
  destruct (main_stopped_early w exec_name args)
    as [(cfg & source & name & Hparse & Hs & Hf) | H]; [|exact H].
  exfalso. revert Husage.
  rewrite (main_configured w exec_name args cfg source name Hparse Hs Hf).
  unfold main_after_checks.
  assert (Hnotice : ~ In (help_usage exec_name) (check_notice cfg)).
  { unfold check_notice. destruct (header_file cfg); [easy|].
    intros [H|[]]. discriminate H. }
  destruct (negb (writable w source)).
  { cbn [stderr]. intros H. apply in_app_or in H as [H|[H|[]]];
      [now apply Hnotice | discriminate H]. }
  destruct (header_file cfg) as [header|].
  2:{ destruct (null_tolerant w); cbn [stderr]; [|exact Hnotice].
      intros H. apply in_app_or in H as [H|[H|[]]];
        [now apply Hnotice | discriminate H]. }
  destruct (negb (writable w header)).
  { cbn [stderr]. intros H. apply in_app_or in H as [H|[H|[]]];
      [now apply Hnotice | discriminate H]. }
  destruct (emit_source_outcome (files w) cfg name (check_notice cfg))
    as [l contents ws _ _ _ | pre rest path contents w1 ws _ _ _ _ | ws _].
  - destruct (emit_header_writes header name) as [wh [Hwh _]].
    rewrite Hwh. cbn [stderr err]. exact Hnotice.
  - cbn [stderr err]. intros H. apply in_app_or in H as [H|[H|[]]];
      [now apply Hnotice | discriminate H].
  - cbn [stderr err]. exact Hnotice.
Qed.

Lemma usage_means_nothing_opened_witness :
  In (help_usage "embed") (stderr (main scenario_world "embed" ["--help"]))
  /\ status (main scenario_world "embed" ["--help"]) = Some EXIT_FAILURE
  /\ opened (main scenario_world "embed" ["--help"]) = []
  /\ source_out (main scenario_world "embed" ["--help"]) = []
  /\ header_out (main scenario_world "embed" ["--help"]) = []
  /\ exists pre,
       stderr (main scenario_world "embed" ["--help"])
       = pre ++ [help_intro; help_usage "embed"].
Proof.
  assert (H : In (help_usage "embed")
                (stderr (main scenario_world "embed" ["--help"]))).
  { right. left. reflexivity. }
  split; [exact H|].
  apply (usage_means_nothing_opened scenario_world "embed" ["--help"] H).
Defined.

(* ================================================================== *)
(** * From the command line to the lookup *)

Lemma chars_append (a b : string) : chars (a ++ b) = chars a ++ chars b.
Proof.
  induction a as [|c a IH]; [reflexivity|].
  cbn [append chars list_ascii_of_string]. unfold chars in IH. now rewrite IH.
Qed.

Lemma nul_free_display_name (preserve : bool) (path : string) :
  nul_free path -> nul_free (display_name preserve path).
Proof.
  destruct preserve; [easy|]. cbn [display_name].
  destruct (plain_name_spec path) as [dir [Hdir _]].
  unfold nul_free. intros Hfree Hin. apply Hfree.
  rewrite Hdir, chars_append. apply in_or_app. now right.
Qed.

(** The generator and the function it generates, together: after a
    successful run on a command line of C strings whose input paths hold no
    [*], the generated function, run on the tables that the text of the
    generated source holds as C and called with the display name of an
    input file that no earlier input file shares, returns the bytes of that
    file followed by a zero byte, and stores the file's size in the length
    slot when one is given. *)
Theorem embedded_file_retrieved
    (w : world) (exec_name : string) (args : list string) (cfg : config)
    (before after : list string) (path : string) (content : list ascii)
    (length : option N)
    (Hok : status (main w exec_name args) = Some EXIT_SUCCESS)
    (Hstrings : Forall nul_free args)
    (Hparse : parse_args exec_name args no_config (mkOut [] [])
              = Ok cfg (mkOut [] []))
    (Hfiles : input_files cfg = Some (before ++ path :: after))
    (Hcontent : files w path = Some content)
    (Hsafe : Forall (fun p => comment_safe p = true)
               (before ++ path :: after))
    (Hfirst : ~ In (display_name (preserve_paths cfg) path)
                (map (display_name (preserve_paths cfg)) before)) :
  exists t : tables,
    read_tables (lex (render (source_out (main w exec_name args)))) = Some t
    /\ lookup t (display_name (preserve_paths cfg) path) length
       = Returned (Ptr (content ++ [NUL]))
           (option_map (fun _ => N.of_nat (List.length content)) length).
Proof.
  destruct (main_success w exec_name args Hok)
    as (cfg' & source & name & header & l & contents
        & Hparse' & _ & _ & _ & Hl & Hread & _ & _ & Hsrc).
  rewrite Hparse in Hparse'. injection Hparse' as <-.
  rewrite Hfiles in Hl. injection Hl as <-.
  exists (tables_of (preserve_paths cfg) (before ++ path :: after) contents).
  split; [now apply (emit_source_text (files w) cfg name _ contents)|].
  destruct (parse_args_files exec_name args _ _ _ _ _ Hparse eq_refl Hfiles)
    as (pre & _ & _ & Hargs & _ & _).
  rewrite Hargs in Hstrings. apply Forall_app in Hstrings as [_ Hstrings].
  destruct (read_all_nth (files w) _ _ Hread) as [_ Hnth].
  destruct (Hnth (List.length before) path) as [c [Hc Hci]].
  { rewrite nth_error_app2, Nat.sub_diag by lia. reflexivity. }
  assert (c = content) by congruence. subst c.
  unfold lookup. cbn [tables_of EMBEDDED_FILE_NAMES].
  rewrite <- (map_map (display_name (preserve_paths cfg))
                (fun s => Ptr (c_array s))).
  rewrite map_app. cbn [map].
  apply lookup_loop_present.
  - intros s Hin. apply in_map_iff in Hin as [p [<- Hp]].
    rewrite c_str_c_array.
    + intros Heq. injection Heq as Heq. apply Hfirst.
      rewrite <- Heq. now apply in_map.
    + apply nul_free_display_name.
      rewrite Forall_forall in Hstrings. apply Hstrings.
      apply in_or_app. now left.
  - apply c_str_c_array, nul_free_display_name.
    rewrite Forall_forall in Hstrings. apply Hstrings.
    apply in_or_app. right. now left.
  - cbn [tables_of EMBEDDED_FILE_DATA]. rewrite length_map, Nat.add_0_l.
    now rewrite nth_error_map, Hci.
  - cbn [tables_of EMBEDDED_FILE_DATA_SIZES]. rewrite length_map, Nat.add_0_l.
    now rewrite nth_error_map, Hci.
Qed.

Lemma embedded_file_retrieved_witness :
  let cfg := mkConfig (Some "get_file") (Some "files.c") (Some "files.h")
               (Some (["a.txt"] ++ "sub/b.txt" :: [])) false in
  status (main scenario_world "embed" scenario_args) = Some EXIT_SUCCESS
  /\ Forall nul_free scenario_args
  /\ parse_args "embed" scenario_args no_config (mkOut [] [])
     = Ok cfg (mkOut [] [])
  /\ files scenario_world "sub/b.txt" = Some (chars "!")
  /\ Forall (fun p => comment_safe p = true) (["a.txt"] ++ "sub/b.txt" :: [])
  /\ ~ In (display_name (preserve_paths cfg) "sub/b.txt")
         (map (display_name (preserve_paths cfg)) ["a.txt"])
  /\ exists t : tables,
       read_tables
         (lex (render (source_out
                         (main scenario_world "embed" scenario_args))))
       = Some t
       /\ lookup t (display_name (preserve_paths cfg) "sub/b.txt") (Some 0%N)
          = Returned (Ptr (chars "!" ++ [NUL]))
              (option_map (fun _ => N.of_nat (List.length (chars "!")))
                 (Some 0%N)).
Proof.
  cbv zeta.
  assert (Hstrings : Forall nul_free scenario_args).
  { unfold scenario_args, nul_free.
    repeat constructor; vm_compute; intuition discriminate. }
  assert (Hfirst : ~ In (display_name false "sub/b.txt")
                       (map (display_name false) ["a.txt"])).
  { vm_compute. intros [H|[]]. discriminate H. }
  assert (Hsafe : Forall (fun p => comment_safe p = true)
                    (["a.txt"] ++ "sub/b.txt" :: [])).
  { repeat constructor. }
  split; [vm_compute; reflexivity|]. split; [exact Hstrings|].
  split; [reflexivity|]. split; [reflexivity|]. split; [exact Hsafe|].
  split; [exact Hfirst|].
  apply (embedded_file_retrieved scenario_world "embed" scenario_args
           (mkConfig (Some "get_file") (Some "files.c") (Some "files.h")
              (Some (["a.txt"] ++ "sub/b.txt" :: [])) false)
           ["a.txt"] [] "sub/b.txt" (chars "!") (Some 0%N));
    try reflexivity; try assumption.
Defined.

(* ================================================================== *)
(** * The declaration and the definition *)

Lemma append_empty_r (s : string) : (s ++ "")%string = s.
Proof. induction s as [|c s IH]; [reflexivity|]. cbn. now rewrite IH. Qed.

Lemma lex_ident_tail (s acc : string) (c : ascii) (rest : string) :
  ident_chars s = true -> (is_letter c || is_digit c) = false ->
  lex_from (LIdent acc) (s ++ String c rest)
  = TIdent (acc ++ s) :: fst (lex_start c) ++ lex_from (snd (lex_start c)) rest.
Proof.
  intros Hs Hc. revert acc Hs; induction s as [|d s IH]; intros acc Hs.
  - cbn [append lex_from lex_step]. rewrite Hc. unfold lex_restart.
    destruct (lex_start c) as [ts st]. cbn [lex_flush fst snd app].
    now rewrite append_empty_r.
  - cbn [ident_chars] in Hs. apply andb_prop in Hs as [Hd Hs].
    cbn [append lex_from lex_step]. rewrite Hd. cbn [app].
    rewrite (IH _ Hs). do 2 f_equal.
    first [apply (append_assoc acc (String d "") s)
          |symmetry; apply (append_assoc acc (String d "") s)].
Qed.

Lemma lex_start_letter (c : ascii) :
  is_letter c = true -> lex_start c = ([], LIdent (String c "")).
Proof.
  destruct c as [[] [] [] [] [] [] [] []]; try discriminate; reflexivity.
Qed.

Lemma lex_identifier (name : string) (c : ascii) (rest : string) :
  is_identifier name = true -> (is_letter c || is_digit c) = false ->
  lex_from LStart (name ++ String c rest)
  = TIdent name :: fst (lex_start c) ++ lex_from (snd (lex_start c)) rest.
Proof.
  destruct name as [|d s]; [discriminate|]. cbn [is_identifier].
  intros Hn Hc. apply andb_prop in Hn as [Hd Hs].
  cbn [append lex_from lex_step]. rewrite (lex_start_letter d Hd).
  cbn [app]. now rewrite (lex_ident_tail s _ c rest Hs Hc).
Qed.

Lemma lex_signature_head (name rest : string) :
  lex_from LStart ("const char* " ++ name ++ rest)
  = [TIdent "const"; TIdent "char"; TPunct "*"]
      ++ lex_from LStart (name ++ rest).
Proof. reflexivity. Qed.

Lemma lex_signature (name rest : string) :
  is_identifier name = true ->
  lex ("const char* " ++ name
         ++ String "(" ("const char* filename, size_t* length)" ++ rest))
  = signature_tokens name ++ lex rest.
Proof.
  intros Hname. unfold lex. rewrite lex_signature_head.
  rewrite (lex_identifier name "(" _ Hname eq_refl). reflexivity.
Qed.

(** When the function name is a C identifier, the declaration written to
    the header and the definition written to the source read as the same
    signature, token for token: the first followed by a semicolon, the
    second by the opening brace of its body. *)
Theorem declaration_matches_definition (name : string)
    (Hname : is_identifier name = true) :
  exists (d f : string) (body : list token),
    appends (generate_function_declaration name) [Text d]
    /\ appends (generate_function name) [Text f]
    /\ lex d = signature_tokens name ++ [TPunct ";"]
    /\ lex f = signature_tokens name ++ TPunct "{" :: body.
Proof.
  eexists _, _, _.
  split; [intros o; reflexivity|]. split; [intros o; reflexivity|].
  split.
  - exact (lex_signature name (";" ++ LF) Hname).
  - unfold function_text.
    exact (lex_signature name _ Hname).
Qed.

Lemma declaration_matches_definition_witness :
  is_identifier "get_file" = true
  /\ exists (d f : string) (body : list token),
       appends (generate_function_declaration "get_file") [Text d]
       /\ appends (generate_function "get_file") [Text f]
       /\ lex d = signature_tokens "get_file" ++ [TPunct ";"]
       /\ lex f = signature_tokens "get_file" ++ TPunct "{" :: body.
Proof.
  split; [reflexivity|].
  apply (declaration_matches_definition "get_file"). reflexivity.
Defined.

(* ================================================================== *)
(** * Literals per line *)

Ltac div_mod_lia := zify; Z.to_euclidean_division_equations; lia.

Lemma hex_rows_app (cur : nat) (a b : list write) :
  hex_rows cur (a ++ b)
  = (fst (hex_rows cur a) ++ fst (hex_rows (snd (hex_rows cur a)) b),
     snd (hex_rows (snd (hex_rows cur a)) b)).
Proof.
  revert cur; induction a as [|w a IH]; intros cur.
  - cbn [app hex_rows fst snd]. now destruct (hex_rows cur b).
  - cbn [app hex_rows]. destruct w as [s| s | c | n]; try apply IH.
    + destruct (has_newline s); [|apply IH].
      rewrite IH. now destruct (hex_rows 0 a).
    + rewrite IH. now destruct (hex_rows 0 a).
Qed.

Lemma data_chars_rows (infd : list ascii) (count : nat) :
  exists ws,
    appends (data_chars count infd) ws
    /\ hex_rows (count mod HEX_COLS) ws
       = (repeat HEX_COLS ((count mod HEX_COLS + List.length infd) / HEX_COLS),
          (count + List.length infd) mod HEX_COLS).
Proof.
  revert count; induction infd as [|c rest IH]; intros count.
  - exists []. split; [apply appends_ret|].
    cbn [hex_rows List.length]. unfold HEX_COLS. f_equal.
    + replace ((count mod 12 + 0) / 12) with 0 by div_mod_lia. reflexivity.
    + f_equal. lia.
  - destruct (IH (S count)) as [ws [Hws Hrows]].
    eexists; split.
    + cbn [data_chars]. eauto 12 with appends.
    + unfold HEX_COLS in *. cbn [app hex_rows List.length].
      change (has_newline ", ") with false. cbv iota.
      destruct ((count + 1) mod 12 =? 0)%nat eqn:E.
      * apply Nat.eqb_eq in E. cbn [app hex_rows].
        change (has_newline (LF ++ TAB ++ TAB)) with true. cbv iota.
        replace 0 with (S count mod 12) at 1 by div_mod_lia.
        rewrite Hrows.
        replace ((count mod 12 + S (List.length rest)) / 12)
          with (S ((S count mod 12 + List.length rest) / 12)) by div_mod_lia.
        cbn [repeat].
        replace (S (count mod 12)) with 12 by div_mod_lia.
        do 2 f_equal. lia.
      * apply Nat.eqb_neq in E. cbn [app].
        replace (S (count mod 12)) with (S count mod 12) by div_mod_lia.
        rewrite Hrows.
        replace ((count mod 12 + S (List.length rest)) / 12)
          with ((S count mod 12 + List.length rest) / 12) by div_mod_lia.
        do 2 f_equal. lia.
Qed.

Lemma name_chars_rows (input_file : string) (count : nat) :
  exists ws,
    appends (name_chars count input_file) ws
    /\ hex_rows (if (count =? 0)%nat then 0 else (count - 1) mod HEX_COLS + 1)
         ws
       = (repeat HEX_COLS
            ((count + String.length input_file) / HEX_COLS
             - (if (count =? 0)%nat then 0 else (count - 1) / HEX_COLS)),
          (count + String.length input_file) mod HEX_COLS + 1).
Proof.
  revert count; induction input_file as [|c rest IH]; intros count.
  - eexists; split.
    + cbn [name_chars]. eauto 12 with appends.
    + unfold HEX_COLS. cbn [String.length].
      destruct (count =? 0)%nat eqn:E0; cbn [negb app hex_rows].
      * apply Nat.eqb_eq in E0. subst count. reflexivity.
      * apply Nat.eqb_neq in E0.
        change (has_newline ", ") with false. cbv iota.
        destruct (count mod 12 =? 0)%nat eqn:E; cbn [app hex_rows].
        -- apply Nat.eqb_eq in E.
           change (has_newline (LF ++ TAB ++ TAB)) with true. cbv iota.
           replace ((count + 0) / 12 - (count - 1) / 12) with 1
             by div_mod_lia.
           cbn [repeat].
           replace ((count - 1) mod 12 + 1) with 12 by div_mod_lia.
           do 2 f_equal. div_mod_lia.
        -- apply Nat.eqb_neq in E.
           replace ((count + 0) / 12 - (count - 1) / 12) with 0
             by div_mod_lia.
           cbn [repeat]. f_equal. div_mod_lia.
  - destruct (IH (S count)) as [ws [Hws Hrows]].
    eexists; split.
    + cbn [name_chars]. eauto 12 with appends.
    + unfold HEX_COLS in *. cbn [String.length].
      change (S count =? 0)%nat with false in Hrows. cbv iota in Hrows.
      replace (S count - 1) with count in Hrows by lia.
      destruct (count =? 0)%nat eqn:E0; cbn [negb app hex_rows].
      * apply Nat.eqb_eq in E0. subst count.
        change (0 mod 12 + 1) with 1 in Hrows. rewrite Hrows.
        reflexivity.
      * apply Nat.eqb_neq in E0.
        change (has_newline ", ") with false. cbv iota.
        destruct (count mod 12 =? 0)%nat eqn:E; cbn [app hex_rows].
        -- apply Nat.eqb_eq in E.
           change (has_newline (LF ++ TAB ++ TAB)) with true. cbv iota.
           replace 1 with (count mod 12 + 1) at 1 by div_mod_lia.
           rewrite Hrows.
           replace ((count + S (String.length rest)) / 12 - (count - 1) / 12)
             with (S ((S count + String.length rest) / 12 - count / 12))
             by div_mod_lia.
           cbn [repeat].
           replace ((count - 1) mod 12 + 1) with 12 by div_mod_lia.
           do 2 f_equal. f_equal. lia.
        -- apply Nat.eqb_neq in E.
           replace (S ((count - 1) mod 12 + 1)) with (count mod 12 + 1)
             by div_mod_lia.
           rewrite Hrows.
           replace ((count + S (String.length rest)) / 12 - (count - 1) / 12)
             with ((S count + String.length rest) / 12 - count / 12)
             by div_mod_lia.
           do 2 f_equal. f_equal. lia.
Qed.

(** Both hex loops lay their literals out the same way, as long as their
    [int] counter does not overflow.  A name of [n] characters, and a file
    of [n] bytes with the zero byte that follows it, with [n] at most
    [INT_MAX], fill [n / HEX_COLS] lines with exactly [HEX_COLS] literals
    each and leave [n mod HEX_COLS + 1] literals on the last line: no line
    of either array holds more than [HEX_COLS] literals, and the last one
    is never empty. *)
Theorem hex_literals_per_line (input_file : string) (infd : list ascii)
    (Hname : (N.of_nat (String.length input_file) <= INT_MAX)%N)
    (Hfile : (N.of_nat (List.length infd) <= INT_MAX)%N) :
  (exists ws,
     appends (name_chars 0 input_file) ws
     /\ hex_rows 0 ws
        = (repeat HEX_COLS (String.length input_file / HEX_COLS),
           String.length input_file mod HEX_COLS + 1))
  /\ (exists ws,
        appends (data_chars 0 infd ;; output_hex NUL) ws
        /\ hex_rows 0 ws
           = (repeat HEX_COLS (List.length infd / HEX_COLS),
              List.length infd mod HEX_COLS + 1)).
Proof.
  split.
  - destruct (name_chars_rows input_file 0) as [ws [Hws Hrows]].
    exists ws. split; [exact Hws|].
    cbn [Nat.eqb Nat.add] in Hrows. now rewrite Nat.sub_0_r in Hrows.
  - destruct (data_chars_rows infd 0) as [ws [Hws Hrows]].
    exists (ws ++ [Hex NUL]). split; [eauto with appends|].
    rewrite hex_rows_app.
    change (0 mod HEX_COLS) with 0 in Hrows. cbn [Nat.add] in Hrows.
    rewrite Hrows. cbn [fst snd hex_rows].
    now rewrite app_nil_r, Nat.add_1_r.
Qed.

Lemma hex_literals_per_line_witness :
  (N.of_nat (String.length "sub/b.txt") <= INT_MAX)%N
  /\ (N.of_nat (List.length (chars "hello, world!")) <= INT_MAX)%N
  /\ (exists ws,
        appends (name_chars 0 "sub/b.txt") ws
        /\ hex_rows 0 ws
           = (repeat HEX_COLS (String.length "sub/b.txt" / HEX_COLS),
              String.length "sub/b.txt" mod HEX_COLS + 1))
  /\ (exists ws,
        appends (data_chars 0 (chars "hello, world!") ;; output_hex NUL) ws
        /\ hex_rows 0 ws
           = (repeat HEX_COLS
                (List.length (chars "hello, world!") / HEX_COLS),
              List.length (chars "hello, world!") mod HEX_COLS + 1)).
Proof.
  assert (Hname : (N.of_nat (String.length "sub/b.txt") <= INT_MAX)%N)
    by (vm_compute; discriminate).
  assert (Hfile : (N.of_nat (List.length (chars "hello, world!"))
                   <= INT_MAX)%N)
    by (vm_compute; discriminate).
  split; [exact Hname|]. split; [exact Hfile|].
  exact (hex_literals_per_line "sub/b.txt" (chars "hello, world!")
           Hname Hfile).
Defined.

(* ================================================================== *)
(** * What [--preserve-paths] changes *)




